(** * treeprint: a shallow embedding of [treeprint.go]

    The Go package keeps a tree as a pointer graph: every [Node] holds a
    back pointer [Root] to its parent and a slice [Nodes] of pointers to its
    children.  The embedding keeps that shape: nodes live in a store
    addressed by locations, the mutating methods pass the store along, and
    the renderer reads it.  Run-time faults of the Go code (nil dereference,
    index out of range, negative [strings.Repeat] count) are results of the
    model, not holes in it. *)

From Stdlib Require Import ZArith String Ascii List Lia Bool.
From stdpp Require Import base list.

Open Scope Z_scope.

(** ** Outcomes of a call *)

Inductive fault : Type :=
| NilDereference
| IndexOutOfRange
| NegativeRepeatCount
| NegativeMakeLen.

(** A call returns a value, panics, or (in the model only) exhausts the
    recursion budget given to it. *)
Inductive result (A : Type) : Type :=
| Ok (a : A)
| Panic (f : fault)
| OutOfFuel.

Arguments Ok {A} a.
Arguments Panic {A} f.
Arguments OutOfFuel {A}.

Definition bind {A B : Type} (r : result A) (k : A -> result B) : result B :=
  match r with
  | Ok a => k a
  | Panic f => Panic f
  | OutOfFuel => OutOfFuel
  end.

Notation "x <- r ; k" := (bind r (fun x => k))
  (at level 20, r at level 100, k at level 200,
   format "'[v' x  <-  r ; '/' k ']'").

(** ** Go's [int] and the string helpers the package calls *)

(** [int] on a 64-bit platform: sums wrap around.  The loop counters of
    [range] loops and [len(nodes)-1] inside such a loop stay within the
    length of a slice and are computed in [Z] as they are. *)
Definition int_wrap (z : Z) : Z := (z + 2 ^ 63) mod 2 ^ 64 - 2 ^ 63.
Definition int_add (a b : Z) : Z := int_wrap (a + b).

Definition len {A : Type} (l : list A) : Z := Z.of_nat (length l).

Definition newline : ascii := "010"%char.
Definition nl : string := String newline EmptyString.

Fixpoint repeat_string (s : string) (n : nat) : string :=
  match n with
  | O => EmptyString
  | S n' => (s ++ repeat_string s n')%string
  end.

(** [strings.Repeat]: panics on a negative count. *)
Definition strings_Repeat (s : string) (count : Z) : result string :=
  if count <? 0 then Panic NegativeRepeatCount
  else Ok (repeat_string s (Z.to_nat count)).

(** [strings.Split(s, "\n")]: the pieces between line breaks; never empty. *)
Fixpoint split_lines (s : string) : list string :=
  match s with
  | EmptyString => [EmptyString]
  | String c s' =>
      if Ascii.eqb c newline then EmptyString :: split_lines s'
      else match split_lines s' with
           | [] => [String c EmptyString]
           | l :: ls => String c l :: ls
           end
  end.

(** [strings.Join]. *)
Definition strings_Join (elems : list string) (sep : string) : string :=
  String.concat sep elems.

(** ** Package variables *)

Record Globals : Type := mkGlobals {
  EdgeTypeLink : string;
  EdgeTypeMid : string;
  EdgeTypeEnd : string;
  IndentSize : Z
}.

Definition default_globals : Globals :=
  {| EdgeTypeLink := "│";
     EdgeTypeMid := "├──";
     EdgeTypeEnd := "└──";
     IndentSize := 3 |}.

(** ** Values *)

Section Treeprint.

(** [Value] and [MetaValue] are [interface{}].  The model separates the nil
    interface, strings (the renderer itself produces them), and every other
    dynamic value, kept abstract: [T] with its [%v] text and its
    [reflect.DeepEqual]. *)
Context {T : Type}.
Variable fmt_T : T -> string.
Variable deep_T : T -> T -> bool.

Inductive Value : Type :=
| VNil
| VString (s : string)
| VOther (x : T).

Definition MetaValue : Type := Value.

Definition is_nil (v : Value) : bool :=
  match v with VNil => true | _ => false end.

(** [fmt.Sprintf("%v", v)]. *)
Definition fmt_v (v : Value) : string :=
  match v with
  | VNil => "<nil>"
  | VString s => s
  | VOther x => fmt_T x
  end.

(** [reflect.DeepEqual] on two interface values. *)
Definition DeepEqual (a b : Value) : bool :=
  match a, b with
  | VNil, VNil => true
  | VString s, VString s' => String.eqb s s'
  | VOther x, VOther y => deep_T x y
  | _, _ => false
  end.

(** ** Nodes and the store *)

Definition loc : Type := nat.

(** The struct [Node].  Its field [Value] is spelled [Value_] here, the type
    having the name.  A nil [Root] is [None]. *)
Record Node : Type := mkNode {
  Root : option loc;
  Meta : MetaValue;
  Value_ : Value;
  Nodes : list loc
}.

Abbreviation heap := (list Node).

(** Reading through a pointer. *)
Definition deref (h : heap) (l : loc) : result Node :=
  match h !! l with
  | Some n => Ok n
  | None => Panic NilDereference
  end.

(** [&Node{...}]: a fresh cell at the end of the store. *)
Definition alloc (h : heap) (n : Node) : heap * loc :=
  (h ++ [n], length h).

(** ** Tree model: the methods of [*Node] *)

Definition set_Root (n : Node) (r : option loc) : Node :=
  {| Root := r; Meta := Meta n; Value_ := Value_ n; Nodes := Nodes n |}.
Definition set_Meta (n : Node) (m : MetaValue) : Node :=
  {| Root := Root n; Meta := m; Value_ := Value_ n; Nodes := Nodes n |}.
Definition set_Value (n : Node) (v : Value) : Node :=
  {| Root := Root n; Meta := Meta n; Value_ := v; Nodes := Nodes n |}.
Definition set_Nodes (n : Node) (ns : list loc) : Node :=
  {| Root := Root n; Meta := Meta n; Value_ := Value_ n; Nodes := ns |}.

(** [New] and [NewWithRoot]. *)
Definition NewWithRoot (h : heap) (root : Value) : heap * loc :=
  alloc h {| Root := None; Meta := VNil; Value_ := root; Nodes := [] |}.

Definition New (h : heap) : heap * loc := NewWithRoot h (VString ".").

(** [n.Nodes = append(n.Nodes, child)] for a freshly allocated child. *)
Definition append_child (h : heap) (n : loc) (meta : MetaValue) (v : Value)
  : result (heap * loc) :=
  nd <- deref h n;
  let '(h1, c) :=
    alloc h {| Root := Some n; Meta := meta; Value_ := v; Nodes := [] |} in
  Ok (<[n := set_Nodes nd (Nodes nd ++ [c])]> h1, c).

(** The leaf adders return the receiver, the branch adders the new node. *)
Definition AddNode (h : heap) (n : loc) (v : Value) : result (heap * loc) :=
  r <- append_child h n VNil v; Ok (fst r, n).

(** The cell [AddNode] allocates under [n]. *)
Definition leaf_node (n : loc) (v : Value) : Node :=
  {| Root := Some n; Meta := VNil; Value_ := v; Nodes := [] |}.

(** A chain of calls [n.AddNode(v1).AddNode(v2)...]: each call is made on
    the node the one before returned. *)
Fixpoint AddNodes (h : heap) (n : loc) (vs : list Value)
  : result (heap * loc) :=
  match vs with
  | [] => Ok (h, n)
  | v :: vs' => r <- AddNode h n v; AddNodes (fst r) (snd r) vs'
  end.

Definition AddMetaNode (h : heap) (n : loc) (meta : MetaValue) (v : Value)
  : result (heap * loc) :=
  r <- append_child h n meta v; Ok (fst r, n).

Definition AddBranch (h : heap) (n : loc) (v : Value) : result (heap * loc) :=
  append_child h n VNil v.

Definition AddMetaBranch (h : heap) (n : loc) (meta : MetaValue) (v : Value)
  : result (heap * loc) :=
  append_child h n meta v.

Definition Branch (h : heap) (n : loc) : result (heap * loc) :=
  nd <- deref h n;
  Ok (<[n := set_Root nd None]> h, n).

Definition SetValue (h : heap) (n : loc) (value : Value) : result heap :=
  nd <- deref h n; Ok (<[n := set_Value nd value]> h).

Definition SetMetaValue (h : heap) (n : loc) (meta : MetaValue) : result heap :=
  nd <- deref h n; Ok (<[n := set_Meta nd meta]> h).

(** The nil [Tree] is [None]. *)
Definition FindLastNode (h : heap) (n : loc) : result (option loc) :=
  nd <- deref h n;
  let ns := Nodes nd in
  if len ns =? 0 then Ok None else Ok (last ns).

(** The loop shared in shape by the two searches: [field] is the field the
    loop compares with [target], [descend] the recursive call it makes on a
    child that does not match. *)
Definition find_range (h : heap) (field : Node -> Value) (target : Value)
  (descend : loc -> result (option loc))
  : list loc -> result (option loc) :=
  fix range (nodes : list loc) : result (option loc) :=
    match nodes with
    | [] => Ok None
    | node :: rest =>
        c <- deref h node;
        if DeepEqual (field c) target then Ok (Some node)
        else
          v <- descend node;
          match v with
          | Some _ => Ok v
          | None => range rest
          end
    end.

(** The recursion of the searches follows the pointers of the store, so it
    takes a budget: one unit per level descended. *)
Fixpoint FindByMeta (fuel : nat) (h : heap) (n : loc) (meta : MetaValue)
  : result (option loc) :=
  match fuel with
  | O => OutOfFuel
  | S fuel' =>
      nd <- deref h n;
      find_range h Meta meta (fun node => FindByMeta fuel' h node meta)
        (Nodes nd)
  end.

(** The descent of [FindByValue] calls [FindByMeta]. *)
Definition FindByValue (fuel : nat) (h : heap) (n : loc) (value : Value)
  : result (option loc) :=
  nd <- deref h n;
  find_range h Value_ value (fun node => FindByMeta fuel h node value)
    (Nodes nd).

(** ** Renderer *)

(** The formatter callbacks write to an [io.Writer]; the model keeps the
    text they write.  A nil callback is [None]. *)
Record PrintFunc : Type := mkPrintFunc {
  MetaFunc : option (MetaValue -> string);
  ValueFunc : option (Value -> string)
}.

Definition DefaultPrintMeta (m : MetaValue) : string :=
  ("[" ++ fmt_v m ++ "]")%string.

Definition DefaultPrintValue (v : Value) : string := fmt_v v.

Definition printMeta (p : PrintFunc) (m : MetaValue) : string :=
  ((match MetaFunc p with
    | Some f => f m
    | None => DefaultPrintMeta m
    end) ++ "  ")%string.

Definition printValue (p : PrintFunc) (v : Value) : string :=
  match ValueFunc p with
  | Some f => f v
  | None => DefaultPrintValue v
  end.

Definition printNode (p : PrintFunc) (n : Node) : string :=
  ((if is_nil (Meta n) then "" else printMeta p (Meta n))
   ++ printValue p (Value_ n))%string.

Section Rendering.

Variable g : Globals.
Variable pf : PrintFunc.
Variable h : heap.

Definition isEnded (levelsEnded : list Z) (level : Z) : bool :=
  existsb (fun l => l =? level) levelsEnded.

(** [n == n.Root.FindLastNode()]; a nil [n.Root] makes the call fault. *)
Definition isLast (n : loc) : result bool :=
  nd <- deref h n;
  match Root nd with
  | None => Panic NilDereference
  | Some r =>
      l <- FindLastNode h r;
      Ok (bool_decide (l = Some n))
  end.

(** [links[level] = s]. *)
Definition store_link (links : list string) (level : Z) (s : string)
  : result (list string) :=
  if (level <? 0) || (len links <=? level) then Panic IndexOutOfRange
  else Ok (<[Z.to_nat level := s]> links).

(** The loop of [padding].  Every turn but the last stores one link and
    lowers [level], so [level + 2] turns always suffice; [fuel] counts them. *)
Fixpoint padding_loop (fuel : nat) (links : list string) (level : Z)
  (node : loc) : result (list string) :=
  match fuel with
  | O => OutOfFuel
  | S fuel' =>
      nd <- deref h node;
      match Root nd with
      | None => Ok links
      | Some r =>
          b <- isLast node;
          s <- (if b then strings_Repeat " " (int_add (IndentSize g) 1)
                else sp <- strings_Repeat " " (IndentSize g);
                     Ok (EdgeTypeLink g ++ sp)%string);
          links' <- store_link links level s;
          padding_loop fuel' links' (int_add level (-1)) r
      end
  end.

Definition padding (level : Z) (node : loc) : result string :=
  let n := int_add level 1 in
  if n <? 0 then Panic NegativeMakeLen
  else
    links <- padding_loop (S (Z.to_nat n)) (replicate (Z.to_nat n) EmptyString)
               level node;
    Ok (strings_Join links "").

(** The result is the node's own value when its text is one line, and
    otherwise the text with every line after the first prefixed. *)
Definition renderValue (level : Z) (node : loc) : result Value :=
  nd <- deref h node;
  let lines := split_lines (printValue pf (Value_ nd)) in
  if len lines <? 2 then Ok (Value_ nd)
  else
    pad <- padding level node;
    Ok (VString (strings_Join
                   (match lines with
                    | [] => []
                    | l0 :: rest => l0 :: map (fun l => (pad ++ l)%string) rest
                    end) nl)).

(** The indentation loop of [printValues], [count] turns from index [i]. *)
Fixpoint print_indent (levelsEnded : list Z) (i : Z) (count : nat)
  : result string :=
  match count with
  | O => Ok EmptyString
  | S count' =>
      s <- (if isEnded levelsEnded i
            then strings_Repeat " " (int_add (IndentSize g) 1)
            else sp <- strings_Repeat " " (IndentSize g);
                 Ok (EdgeTypeLink g ++ sp)%string);
      rest <- print_indent levelsEnded (int_add i 1) count';
      Ok (s ++ rest)%string
  end.

Definition printValues (level : Z) (levelsEnded : list Z) (edge : string)
  (node : loc) : result string :=
  indent <- print_indent levelsEnded 0 (Z.to_nat level);
  val <- renderValue level node;
  nd <- deref h node;
  let meta := Meta nd in
  Ok (indent ++ edge ++ " "
      ++ (if is_nil meta then "" else printMeta pf meta)
      ++ fmt_v val ++ nl)%string.

(** The loop of [printNodes]; [descend] is the recursive call on the
    children of a node, [total] is [len(nodes)]. *)
Definition printNodes_range (level : Z) (total : Z)
  (descend : list Z -> list loc -> result string)
  : Z -> list Z -> list loc -> result string :=
  fix range (i : Z) (levelsEnded : list Z) (rest : list loc)
    : result string :=
    match rest with
    | [] => Ok EmptyString
    | node :: rest' =>
        let last := i =? total - 1 in
        let levelsEnded :=
          if last then levelsEnded ++ [level] else levelsEnded in
        let edge := if last then EdgeTypeEnd g else EdgeTypeMid g in
        line <- printValues level levelsEnded edge node;
        nd <- deref h node;
        below <- (if 0 <? len (Nodes nd) then descend levelsEnded (Nodes nd)
                  else Ok EmptyString);
        others <- range (i + 1) levelsEnded rest';
        Ok (line ++ below ++ others)%string
    end.

(** [printNodes] returns the text it writes.  The recursion into the
    children follows the store, so it takes a budget. *)
Fixpoint printNodes (fuel : nat) (level : Z) (levelsEnded : list Z)
  (nodes : list loc) : result string :=
  match fuel with
  | O => OutOfFuel
  | S fuel' =>
      printNodes_range level (len nodes)
        (printNodes fuel' (int_add level 1)) 0 levelsEnded nodes
  end.

Definition Bytes (fuel : nat) (n : loc) : result string :=
  nd <- deref h n;
  let level := 0 in
  first <- match Root nd with
           | None => Ok ((printNode pf nd ++ nl)%string, [])
           | Some _ =>
               let '(edge, levelsEnded) :=
                 if len (Nodes nd) =? 0 then (EdgeTypeEnd g, [level])
                 else (EdgeTypeMid g, []) in
               line <- printValues 0 levelsEnded edge n;
               Ok (line, levelsEnded)
           end;
  below <- (if 0 <? len (Nodes nd)
            then printNodes fuel level (snd first) (Nodes nd)
            else Ok EmptyString);
  Ok (fst first ++ below)%string.

End Rendering.

(** ** Well-formed trees in the store

    A [tree] is the shape the adders build: every node once, the children in
    insertion order.  It carries the location of each node, so that a search
    result can be named. *)

#[local] Unset Elimination Schemes.
Inductive tree : Type :=
| Tree (l : loc) (meta : MetaValue) (value : Value) (kids : list tree).
#[local] Set Elimination Schemes.

Definition tloc (t : tree) : loc := match t with Tree l _ _ _ => l end.
Definition tmeta (t : tree) : MetaValue := match t with Tree _ m _ _ => m end.
Definition tvalue (t : tree) : Value := match t with Tree _ _ v _ => v end.
Definition tkids (t : tree) : list tree := match t with Tree _ _ _ ks => ks end.

Fixpoint height (t : tree) : nat :=
  match t with
  | Tree _ _ _ ks => S (fold_right Nat.max O (map height ks))
  end.

(** [repr h parent t]: the store holds [t] at [tloc t] under [parent]; the
    children are distinct cells and every back pointer names the parent. *)
Fixpoint repr (h : heap) (parent : option loc) (t : tree) : Prop :=
  match t with
  | Tree l m v ks =>
      h !! l = Some {| Root := parent; Meta := m; Value_ := v;
                       Nodes := map tloc ks |}
      /\ NoDup (map tloc ks)
      /\ (fix all (ks : list tree) : Prop :=
            match ks with
            | [] => True
            | k :: ks' => repr h (Some l) k /\ all ks'
            end) ks
  end.

(** [shape h t]: the store holds [t] at [tloc t] as far as the downward
    pointers go; the back pointers are free.  This is all the searches
    read. *)
Fixpoint shape (h : heap) (t : tree) : Prop :=
  match t with
  | Tree l m v ks =>
      (exists parent,
          h !! l = Some {| Root := parent; Meta := m; Value_ := v;
                           Nodes := map tloc ks |})
      /\ (fix all (ks : list tree) : Prop :=
            match ks with
            | [] => True
            | k :: ks' => shape h k /\ all ks'
            end) ks
  end.

(** [up_chain h n lasts]: the walk from [n] along the back pointers ends at
    a parentless node, and [lasts] tells for every node passed, outermost
    first and [n] itself last, whether it is the last entry of its parent's
    children. *)
Inductive up_chain (h : heap) : loc -> list bool -> Prop :=
| up_root n nd :
    h !! n = Some nd -> Root nd = None -> up_chain h n []
| up_step n nd r rd lasts :
    h !! n = Some nd -> Root nd = Some r -> h !! r = Some rd ->
    up_chain h r lasts ->
    up_chain h n (lasts ++ [bool_decide (last (Nodes rd) = Some n)]).

(** The flag of level [i] in a chain; no flag outside of it. *)
Definition flag_at (lasts : list bool) (i : Z) : bool :=
  if i <? 0 then false else nth (Z.to_nat i) lasts false.

(** The descendants of a node in the order the searches meet them: each
    child, then what is below it, then the next child. *)
Fixpoint descendants (t : tree) : list tree :=
  match t with
  | Tree _ _ _ ks => flat_map (fun k => k :: descendants k) ks
  end.

Definition meta_matches (target : MetaValue) (t : tree) : bool :=
  DeepEqual (tmeta t) target.

(** What [FindByValue] answers on the children [ks] of its receiver. *)
Fixpoint by_value_answer (target : Value) (ks : list tree) : option loc :=
  match ks with
  | [] => None
  | k :: ks' =>
      if DeepEqual (tvalue k) target then Some (tloc k)
      else match find (meta_matches target) (descendants k) with
           | Some d => Some (tloc d)
           | None => by_value_answer target ks'
           end
  end.

(** ** The diagram of a well-formed tree

    The diagram as the specification describes it, computed on the tree
    itself, to be compared with what [Bytes] writes.  A node is placed by the
    flags of its ancestors below the root, outermost first: [true] where the
    ancestor is the last child of its parent. *)

Section Diagram.

Variable g : Globals.
Variable pf : PrintFunc.

(** One level of padding. *)
Definition segment (last : bool) : string :=
  if last then repeat_string " " (Z.to_nat (IndentSize g + 1))
  else (EdgeTypeLink g ++ repeat_string " " (Z.to_nat (IndentSize g)))%string.

(** The segments of a chain of levels, root level first. *)
Definition chain_padding (lasts : list bool) : string :=
  fold_right String.append EmptyString (map segment lasts).

(** The text of a value at the end of the chain [lasts] (its own level
    included): a text of several lines, as the value formatter gives it, has
    every line after the first prefixed by the padding of the chain.  Where
    the formatter gives one line, the diagram has what [renderValue] hands
    on, the value itself in its plain [%v] text. *)
Definition value_text (lasts : list bool) (v : Value) : string :=
  match split_lines (printValue pf v) with
  | l0 :: (_ :: _) as rest =>
      strings_Join
        (l0 :: map (fun l => (chain_padding lasts ++ l)%string) rest) nl
  | _ => fmt_v v
  end.

Definition connector (last : bool) : string :=
  if last then EdgeTypeEnd g else EdgeTypeMid g.

Definition is_last_of (ks' : list tree) : bool :=
  match ks' with [] => true | _ => false end.

Fixpoint diagram_node (anc : list bool) (last : bool) (t : tree) : string :=
  match t with
  | Tree _ m v ks =>
      (chain_padding anc ++ connector last ++ " "
       ++ (if is_nil m then "" else printMeta pf m)
       ++ value_text (anc ++ [last]) v ++ nl
       ++ (fix forest (ks : list tree) : string :=
             match ks with
             | [] => EmptyString
             | k :: ks' =>
                 diagram_node (anc ++ [last]) (is_last_of ks') k ++ forest ks'
             end) ks)%string
  end.

Fixpoint diagram_forest (anc : list bool) (ks : list tree) : string :=
  match ks with
  | [] => EmptyString
  | k :: ks' =>
      (diagram_node anc (is_last_of ks') k ++ diagram_forest anc ks')%string
  end.

(** The lines of a row of leaves without meta, named by their values. *)
Fixpoint leaf_lines (vs : list Value) : string :=
  match vs with
  | [] => EmptyString
  | v :: vs' =>
      (connector (match vs' with [] => true | _ => false end) ++ " "
       ++ fmt_v v ++ nl ++ leaf_lines vs')%string
  end.

Definition diagram (t : tree) : string :=
  ((if is_nil (tmeta t) then "" else printMeta pf (tmeta t))
   ++ printValue pf (tvalue t) ++ nl ++ diagram_forest [] (tkids t))%string.

End Diagram.

(** ** The rest of the tree model *)

(** The loop of [VisitAll]; [descend] is the recursive call on a child that
    has children.  The callback [fn] is kept to what it gathers: it is given
    the node and what it has gathered so far, and does not change the tree. *)
Definition visit_range {A : Type} (h : heap) (fn : A -> loc -> A)
  (descend : loc -> A -> result A) : list loc -> A -> result A :=
  fix range (nodes : list loc) (acc : A) : result A :=
    match nodes with
    | [] => Ok acc
    | node :: rest =>
        let acc := fn acc node in
        c <- deref h node;
        acc <- (if 0 <? len (Nodes c) then descend node acc else Ok acc);
        range rest acc
    end.

Fixpoint VisitAll {A : Type} (fuel : nat) (h : heap) (n : loc)
  (fn : A -> loc -> A) (acc : A) : result A :=
  match fuel with
  | O => OutOfFuel
  | S fuel' =>
      nd <- deref h n;
      visit_range h fn (fun node acc => VisitAll fuel' h node fn acc)
        (Nodes nd) acc
  end.

(** [String] and [Print] are [Bytes] read as a string. *)
Definition Print (g : Globals) (f : PrintFunc) (h : heap) (fuel : nat)
  (n : loc) : result string :=
  Bytes g f h fuel n.

Definition String_ (g : Globals) (h : heap) (fuel : nat) (n : loc)
  : result string :=
  Bytes g {| MetaFunc := None; ValueFunc := None |} h fuel n.

(** A value whose text, as the active value formatter gives it, is one
    line. *)
Definition one_line (pf : PrintFunc) (v : Value) : Prop :=
  len (split_lines (printValue pf v)) < 2.

(** The line breaks of a text. *)
Fixpoint count_nl (s : string) : nat :=
  match s with
  | EmptyString => O
  | String c s' => ((if Ascii.eqb c newline then 1 else 0) + count_nl s')%nat
  end.

(** The line breaks a node brings to a render under the default value
    formatter: the one that ends its line, those of its meta as printed, and
    those of its value. *)
Definition node_breaks (pf : PrintFunc) (t : tree) : nat :=
  (1 + (if is_nil (tmeta t) then 0 else count_nl (printMeta pf (tmeta t)))
   + count_nl (fmt_v (tvalue t)))%nat.

(** ** Trees after a change of the store *)

(** [graft n new t]: [t] with [new] as one more last child of the node at
    [n]. *)
Fixpoint graft (n : loc) (new : tree) (t : tree) : tree :=
  match t with
  | Tree l m v ks =>
      Tree l m v (map (graft n new) ks ++ (if Nat.eqb l n then [new] else []))
  end.

(** [relabel n fm fv t]: [t] with the meta and the value of the node at [n]
    passed through [fm] and [fv]. *)
Fixpoint relabel (n : loc) (fm : MetaValue -> MetaValue)
  (fv : Value -> Value) (t : tree) : tree :=
  match t with
  | Tree l m v ks =>
      Tree l (if Nat.eqb l n then fm m else m)
        (if Nat.eqb l n then fv v else v) (map (relabel n fm fv) ks)
  end.

(** [with_value n v t] and [with_meta n m t]: [t] with the value, or the
    meta, of the node at [n] replaced. *)
Definition with_value (n : loc) (v : Value) (t : tree) : tree :=
  relabel n (fun m => m) (fun _ => v) t.

Definition with_meta (n : loc) (m : MetaValue) (t : tree) : tree :=
  relabel n (fun _ => m) (fun v => v) t.

End Treeprint.

Arguments Value T : clear implicits.
Arguments MetaValue T : clear implicits.
Arguments Node T : clear implicits.
Arguments PrintFunc T : clear implicits.
Arguments tree T : clear implicits.

(** ** Sample runs *)

Module Samples.

(** The dynamic values of the samples are booleans. *)
Definition show_bool (b : bool) : string := if b then "true" else "false".
Definition run {A} (r : result A) (d : A) : A :=
  match r with Ok a => a | _ => d end.
Definition pf0 : PrintFunc bool := {| MetaFunc := None; ValueFunc := None |}.

(** root ".", leaves "a" and "b". *)
Definition two_leaves : list (Node bool) :=
  let '(h, r) := New [] in
  let h := fst (run (AddNode h r (VString "a")) (h, r)) in
  fst (run (AddNode h r (VString "b")) (h, r)).

(** root "." with branch "x" holding leaf "y", then leaf "z". *)
Definition nested : result (list (Node bool)) :=
  let '(h, r) := New [] in
  b <- AddBranch h r (VString "x");
  c <- AddNode (fst b) (snd b) (VString "y");
  d <- AddNode (fst c) r (VString "z");
  Ok (fst d).

Definition three_lines : string :=
  ("one" ++ nl ++ "two" ++ nl ++ "three")%string.

(** A three-line value two levels down, under branches that are not last. *)
Definition deep_multiline : result (list (Node bool)) :=
  let '(h, r) := New [] in
  x <- AddBranch h r (VString "x");
  p <- AddBranch (fst x) (snd x) (VString "p");
  m <- AddNode (fst p) (snd p) (VString three_lines);
  q <- AddNode (fst m) (snd x) (VString "q");
  z <- AddNode (fst q) r (VString "z");
  Ok (fst z).

Definition angle : PrintFunc bool :=
  {| MetaFunc := None;
     ValueFunc := Some (fun v => ("<" ++ fmt_v show_bool v ++ ">")%string) |}.

(** The stores the sample runs leave, and the trees they hold. *)
Definition nested_heap : list (Node bool) :=
  Eval vm_compute in run nested [].

Definition deep_heap : list (Node bool) :=
  Eval vm_compute in run deep_multiline [].

Definition deep_tree : tree bool :=
  Tree 0%nat VNil (VString ".")
    [Tree 1%nat VNil (VString "x")
       [Tree 2%nat VNil (VString "p")
          [Tree 3%nat VNil (VString three_lines) []];
        Tree 4%nat VNil (VString "q") []];
     Tree 5%nat VNil (VString "z") []].

(** root ".", branch "x" under it, branch "one\ntwo" under "x". *)
Definition two_lines : string := ("one" ++ nl ++ "two")%string.

Definition under_branch : list (Node bool) :=
  Eval vm_compute in
    run (let '(h, r) := New [] in
         x <- AddBranch h r (VString "x");
         p <- AddBranch (fst x) (snd x) (VString two_lines);
         Ok (fst p)) [].

(** root ".", its only child the branch "x", leaf "y" under "x". *)
Definition only_branch : list (Node bool) :=
  Eval vm_compute in
    run (let '(h, r) := New [] in
         x <- AddBranch h r (VString "x");
         y <- AddNode (fst x) (snd x) (VString "y");
         Ok (fst y)) [].

(** A tree with metas: branch "x" tagged [true]; under it leaf "y" tagged
    "k" and leaf "k" without meta; then leaf "z" without meta. *)
Definition tagged_heap : list (Node bool) :=
  Eval vm_compute in
    run (let '(h, r) := New [] in
         x <- AddMetaBranch h r (VOther true) (VString "x");
         y <- AddMetaNode (fst x) (snd x) (VString "k") (VString "y");
         k <- AddNode (fst y) (snd x) (VString "k");
         z <- AddNode (fst k) r (VString "z");
         Ok (fst z)) [].

Definition tagged_tree : tree bool :=
  Tree 0%nat VNil (VString ".")
    [Tree 1%nat (VOther true) (VString "x")
       [Tree 2%nat (VString "k") (VString "y") [];
        Tree 3%nat VNil (VString "k") []];
     Tree 4%nat VNil (VString "z") []].

(** The cell of the branch "x" in the tagged tree, and the subtree below the
    branch "x" of the deep tree. *)
Definition tagged_x : Node bool :=
  {| Root := Some 0%nat; Meta := VOther true; Value_ := VString "x";
     Nodes := [2%nat; 3%nat] |}.

Definition deep_x : tree bool :=
  Tree 1%nat VNil (VString "x")
    [Tree 2%nat VNil (VString "p")
       [Tree 3%nat VNil (VString three_lines) []];
     Tree 4%nat VNil (VString "q") []].

(** The tagged store after [Branch] on the branch "x". *)
Definition tagged_cut : list (Node bool) :=
  Eval vm_compute in fst (run (Branch tagged_heap 1%nat) ([], 0%nat)).

Definition tagged_x_tree : tree bool :=
  Tree 1%nat (VOther true) (VString "x")
    [Tree 2%nat (VString "k") (VString "y") [];
     Tree 3%nat VNil (VString "k") []].

(** The package variables with a negative indentation width. *)
Definition narrow_globals : Globals :=
  {| EdgeTypeLink := EdgeTypeLink default_globals;
     EdgeTypeMid := EdgeTypeMid default_globals;
     EdgeTypeEnd := EdgeTypeEnd default_globals;
     IndentSize := -2 |}.

(** A lone root whose value has two lines, and a lone root with a meta. *)
Definition two_line_root : list (Node bool) :=
  fst (NewWithRoot [] (VString two_lines)).

Definition meta_root : list (Node bool) :=
  Eval vm_compute in run (SetMetaValue (fst (New [])) 0%nat (VString "m")) [].

(** A visitor that lists the nodes it is given. *)
Definition listing (acc : list loc) (n : loc) : list loc := acc ++ [n].

End Samples.

(** * Properties *)

Section Properties.

Context {T : Type}.
Variable fmt_T : T -> string.
Variable deep_T : T -> T -> bool.

Implicit Types (h : list (Node T)) (t k : tree T) (ks : list (tree T)).
Implicit Types (n l : loc) (m v : Value T).

(** ** Basic facts *)

Lemma int_wrap_small (z : Z) :
  - 2 ^ 63 <= z < 2 ^ 63 -> int_wrap z = z.
Proof.
  intros Hz. unfold int_wrap.
  rewrite Z.mod_small; lia.
Qed.

Lemma int_add_small (a b : Z) :
  - 2 ^ 63 <= a + b < 2 ^ 63 -> int_add a b = a + b.
Proof. apply int_wrap_small. Qed.

Lemma deref_Some h n (nd : Node T) : h !! n = Some nd -> deref h n = Ok nd.
Proof. intros E. unfold deref. now rewrite E. Qed.

Lemma repr_unfold h parent l m v ks :
  repr h parent (Tree l m v ks) <->
  h !! l = Some {| Root := parent; Meta := m; Value_ := v;
                   Nodes := map tloc ks |}
  /\ NoDup (map tloc ks)
  /\ Forall (repr h (Some l)) ks.
Proof.
  simpl.
  set (all := fix all (ks : list (tree T)) : Prop :=
                match ks with
                | [] => True
                | k :: ks' => repr h (Some l) k /\ all ks'
                end).
  assert (Hall : forall js, all js <-> Forall (repr h (Some l)) js).
  { induction js as [|j js IH]; simpl.
    - split; [constructor | trivial].
    - rewrite IH. split.
      + intros [Hj Hjs]. now constructor.
      + intros Hf. inversion Hf; subst. now split. }
  rewrite Hall. reflexivity.
Qed.

Lemma shape_unfold h l m v ks :
  shape h (Tree l m v ks) <->
  (exists parent,
      h !! l = Some {| Root := parent; Meta := m; Value_ := v;
                       Nodes := map tloc ks |})
  /\ Forall (shape h) ks.
Proof.
  simpl.
  set (all := fix all (ks : list (tree T)) : Prop :=
                match ks with
                | [] => True
                | k :: ks' => shape h k /\ all ks'
                end).
  assert (Hall : forall js, all js <-> Forall (shape h) js).
  { induction js as [|j js IH]; simpl.
    - split; [constructor | trivial].
    - rewrite IH. split.
      + intros [Hj Hjs]. now constructor.
      + intros Hf. inversion Hf; subst. now split. }
  rewrite Hall. reflexivity.
Qed.

Lemma shape_lookup h t :
  shape h t ->
  exists parent,
    h !! tloc t = Some {| Root := parent; Meta := tmeta t;
                          Value_ := tvalue t; Nodes := map tloc (tkids t) |}.
Proof. destruct t; simpl; tauto. Qed.

Lemma repr_lookup h parent t :
  repr h parent t ->
  h !! tloc t = Some {| Root := parent; Meta := tmeta t; Value_ := tvalue t;
                        Nodes := map tloc (tkids t) |}.
Proof. destruct t; simpl; tauto. Qed.

Lemma height_kids l m v ks (fuel : nat) :
  (height (Tree l m v ks) <= S fuel)%nat ->
  Forall (fun k => (height k <= fuel)%nat) ks.
Proof.
  simpl. intros H. apply le_S_n in H.
  induction ks as [|k ks IH]; constructor; simpl in H; [lia|].
  apply IH. lia.
Qed.

Lemma height_pos t : (1 <= height t)%nat.
Proof. destruct t; simpl; lia. Qed.

(** ** Searching *)

Lemma find_forest (P : tree T -> bool) k ks :
  find P (flat_map (fun j => j :: descendants j) (k :: ks)) =
  if P k then Some k
  else match find P (descendants k) with
       | Some d => Some d
       | None => find P (flat_map (fun j => j :: descendants j) ks)
       end.
Proof.
  simpl. destruct (P k); [reflexivity|].
  generalize (descendants k) as ds.
  induction ds as [|d ds IH]; simpl; [reflexivity|].
  destruct (P d); [reflexivity | exact IH].
Qed.

(** A well-formed tree has the shape the searches read. *)
Lemma repr_shape (bound : nat) :
  forall h parent t,
    (height t <= bound)%nat -> repr h parent t -> shape h t.
Proof.
  induction bound as [|bound IH]; intros h parent t Hh Hr.
  - pose proof (height_pos t). lia.
  - destruct t as [l m v ks].
    apply height_kids in Hh. apply repr_unfold in Hr.
    destruct Hr as (Hl & _ & Hks).
    apply shape_unfold. split; [now exists parent|].
    rewrite Forall_forall in Hh, Hks |- *.
    intros k Hk. apply (IH h (Some l)); auto.
Qed.

(** On a tree, with a budget of at least its height, [FindByMeta] answers
    the first descendant, in the order of [descendants], whose meta
    deep-equals the target. *)
Lemma FindByMeta_shape (fuel : nat) :
  forall h t target,
    shape h t -> (height t <= fuel)%nat ->
    FindByMeta deep_T fuel h (tloc t) target =
    Ok (option_map tloc
          (find (meta_matches deep_T target) (descendants t))).
Proof.
  induction fuel as [|fuel IH]; intros h t target Hs Hh.
  - pose proof (height_pos t). lia.
  - destruct t as [l m v ks].
    apply height_kids in Hh. apply shape_unfold in Hs.
    destruct Hs as ((parent & Hl) & Hks).
    simpl. rewrite (deref_Some _ _ _ Hl). simpl. clear Hl.
    induction ks as [|k ks IHks]; [reflexivity|].
    inversion Hks as [|? ? Hk Hks']; subst.
    inversion Hh as [|? ? Hhk Hh']; subst.
    rewrite find_forest.
    cbn [map find_range].
    destruct (shape_lookup _ _ Hk) as (pk & Hlk).
    rewrite (deref_Some _ _ _ Hlk). cbn [bind Meta].
    unfold meta_matches at 1.
    destruct (DeepEqual deep_T (tmeta k) target); [reflexivity|].
    rewrite (IH _ _ _ Hk Hhk). cbn [bind].
    destruct (find (meta_matches deep_T target) (descendants k));
      [reflexivity|].
    cbn [option_map]. apply IHks; assumption.
Qed.

Lemma find_first {A : Type} (P : A -> bool) (xs : list A) :
  match find P xs with
  | Some d =>
      exists pre post, xs = pre ++ d :: post
        /\ Forall (fun x => P x = false) pre /\ P d = true
  | None => Forall (fun x => P x = false) xs
  end.
Proof.
  induction xs as [|x xs IH]; simpl; [constructor|].
  destruct (P x) eqn:Px.
  - exists [], xs. repeat split; [constructor | exact Px].
  - destruct (find P xs) as [d|].
    + destruct IH as (pre & post & -> & Hpre & Hd).
      exists (x :: pre), post. repeat split; [now constructor | exact Hd].
    + now constructor.
Qed.

Lemma DeepEqual_nil m : DeepEqual deep_T m VNil = true <-> m = VNil.
Proof. destruct m; simpl; split; congruence. Qed.

(** ** Searching: results *)

(** C7.  On every tree [FindByMeta] walks the descendants child
    first, then below the child, then the next child ([descendants] lists
    them in that order) and returns the first one whose meta deep-equals the
    target; when no descendant matches it returns nil. *)
Theorem FindByMeta_first_match h t (target : MetaValue T) (fuel : nat) :
  shape h t -> (height t <= fuel)%nat ->
  (exists pre d post,
      descendants t = pre ++ d :: post
      /\ Forall (fun x => DeepEqual deep_T (tmeta x) target = false) pre
      /\ DeepEqual deep_T (tmeta d) target = true
      /\ FindByMeta deep_T fuel h (tloc t) target = Ok (Some (tloc d)))
  \/ (Forall (fun x => DeepEqual deep_T (tmeta x) target = false)
        (descendants t)
      /\ FindByMeta deep_T fuel h (tloc t) target = Ok None).
Proof.
  intros Hs Hh. rewrite (FindByMeta_shape fuel h t target Hs Hh).
  pose proof (find_first (meta_matches deep_T target) (descendants t)) as F.
  destruct (find (meta_matches deep_T target) (descendants t)) as [d|].
  - left. destruct F as (pre & post & E & Hpre & Hd).
    exists pre, d, post. auto.
  - right. auto.
Qed.

(** C10.  When some descendant has no meta, [FindByMeta] with the nil
    target does not answer nil: it returns the first descendant, in search
    order, whose meta is nil. *)
Theorem FindByMeta_nil_target h t (fuel : nat) :
  shape h t -> (height t <= fuel)%nat ->
  Exists (fun d => tmeta d = VNil) (descendants t) ->
  exists pre d post,
    descendants t = pre ++ d :: post
    /\ Forall (fun x => tmeta x <> VNil) pre
    /\ tmeta d = VNil
    /\ FindByMeta deep_T fuel h (tloc t) VNil = Ok (Some (tloc d)).
Proof.
  intros Hs Hh Hex. rewrite (FindByMeta_shape fuel h t VNil Hs Hh).
  pose proof (find_first (meta_matches deep_T VNil) (descendants t)) as F.
  destruct (find (meta_matches deep_T VNil) (descendants t)) as [d|].
  - destruct F as (pre & post & E & Hpre & Hd).
    exists pre, d, post. repeat split; try assumption.
    + eapply Forall_impl; [exact Hpre|].
      intros x Hx Hn. apply DeepEqual_nil in Hn.
      unfold meta_matches in Hx. congruence.
    + now apply DeepEqual_nil.
  - exfalso. apply Exists_exists in Hex. destruct Hex as (d & Hin & Hd).
    rewrite Forall_forall in F. specialize (F d Hin).
    apply DeepEqual_nil in Hd. unfold meta_matches in F. congruence.
Qed.

(** C6.  [FindByValue] compares the value of each direct child with the
    target; below a child it asks [FindByMeta], so a deeper descendant is
    answered when its meta, not its value, deep-equals the target. *)
Theorem FindByValue_descends_by_meta h t (target : Value T)
  (fuel : nat) :
  shape h t -> (height t <= S fuel)%nat ->
  FindByValue deep_T fuel h (tloc t) target =
  Ok (by_value_answer deep_T target (tkids t)).
Proof.
  intros Hs Hh. destruct t as [l m v ks].
  apply height_kids in Hh. apply shape_unfold in Hs.
  destruct Hs as ((parent & Hl) & Hks).
  unfold FindByValue. cbn [tloc tkids].
  rewrite (deref_Some _ _ _ Hl). cbn [bind Nodes]. clear Hl.
  induction ks as [|k ks IHks]; [reflexivity|].
  inversion Hks as [|? ? Hk Hks']; subst.
  inversion Hh as [|? ? Hhk Hh']; subst.
  cbn [map find_range by_value_answer].
  destruct (shape_lookup _ _ Hk) as (pk & Hlk).
  rewrite (deref_Some _ _ _ Hlk). cbn [bind Value_].
  destruct (DeepEqual deep_T (tvalue k) target); [reflexivity|].
  rewrite (FindByMeta_shape fuel h k target Hk Hhk). cbn [bind].
  destruct (find (meta_matches deep_T target) (descendants k));
    [reflexivity|].
  cbn [option_map]. apply IHks; assumption.
Qed.

(** ** Rendering *)

Lemma append_nil_r (s : string) : (s ++ "")%string = s.
Proof. induction s as [|c s IH]; simpl; [reflexivity | now rewrite IH]. Qed.

Lemma append_assoc (a b c : string) :
  ((a ++ b) ++ c)%string = (a ++ b ++ c)%string.
Proof. induction a as [|x a IH]; simpl; [reflexivity | now rewrite IH]. Qed.

Lemma Join_empty_sep (links : list string) :
  strings_Join links "" = fold_right String.append EmptyString links.
Proof.
  unfold strings_Join.
  induction links as [|x xs IH]; [reflexivity|].
  destruct xs as [|y ys]; [simpl; now rewrite append_nil_r|].
  change (String.concat "" (x :: y :: ys))
    with (x ++ "" ++ String.concat "" (y :: ys))%string.
  rewrite IH. reflexivity.
Qed.

Section Render.

Variable g : Globals.
Variable pf : PrintFunc T.
Variable h : list (Node T).

(** The indentation width is one the package can repeat and add one to. *)
Hypothesis indent_ok : 0 <= IndentSize g < 2 ^ 63 - 1.

Lemma link_segment (b : bool) :
  (if b then strings_Repeat " " (int_add (IndentSize g) 1)
   else sp <- strings_Repeat " " (IndentSize g);
        Ok (EdgeTypeLink g ++ sp)%string)
  = Ok (segment g b).
Proof.
  unfold strings_Repeat, segment. rewrite int_add_small by lia.
  destruct b.
  - destruct (Z.ltb_spec (IndentSize g + 1) 0); [lia | reflexivity].
  - destruct (Z.ltb_spec (IndentSize g) 0); [lia | reflexivity].
Qed.

Lemma isEnded_app (le : list Z) (x i : Z) :
  isEnded (le ++ [x]) i = isEnded le i || (x =? i).
Proof.
  unfold isEnded. rewrite existsb_app. simpl. now rewrite orb_false_r.
Qed.

Lemma print_indent_chain (le : list Z) (rest : list bool) :
  forall i : Z,
    0 <= i -> i + len rest < 2 ^ 63 ->
    (forall j : nat, (j < length rest)%nat ->
       isEnded le (i + Z.of_nat j) = nth j rest false) ->
    print_indent g le i (length rest) = Ok (chain_padding g rest).
Proof.
  unfold len.
  induction rest as [|b rest IH]; intros i Hi Hb Hle; [reflexivity|].
  cbn [length print_indent].
  assert (E0 : isEnded le i = b).
  { specialize (Hle O). simpl in Hle. rewrite Z.add_0_r in Hle.
    apply Hle. lia. }
  rewrite E0, link_segment. cbn [bind].
  rewrite int_add_small by (simpl length in Hb; lia).
  rewrite IH.
  - reflexivity.
  - lia.
  - simpl length in Hb. lia.
  - intros j Hj. specialize (Hle (S j)). simpl in Hle.
    replace (i + 1 + Z.of_nat j) with (i + Z.of_nat (S j)) by lia.
    apply Hle. lia.
Qed.

Lemma isLast_chain n (nd rd : Node T) r :
  h !! n = Some nd -> Root nd = Some r -> h !! r = Some rd ->
  isLast h n = Ok (bool_decide (last (Nodes rd) = Some n)).
Proof.
  intros Hn Hr Hrd. unfold isLast, FindLastNode.
  rewrite (deref_Some _ _ _ Hn). cbn [bind]. rewrite Hr.
  rewrite (deref_Some _ _ _ Hrd). cbn [bind].
  destruct (Nodes rd) as [|x xs]; reflexivity.
Qed.

Lemma int_wrap_range (z : Z) : - 2 ^ 63 <= int_wrap z < 2 ^ 63.
Proof.
  unfold int_wrap.
  pose proof (Z.mod_pos_bound (z + 2 ^ 63) (2 ^ 64) ltac:(lia)). lia.
Qed.

(** The budget [padding] gives its loop is never used up: the loop leaves
    at a parentless node or faults once [level] is below 0. *)
Lemma padding_loop_budget (fuel : nat) :
  forall (links : list string) (level : Z) n,
    (1 <= fuel)%nat -> len links < 2 ^ 63 ->
    (0 <= level < len links -> level + 2 <= Z.of_nat fuel) ->
    padding_loop g h fuel links level n <> OutOfFuel.
Proof.
  induction fuel as [|fuel IH]; intros links level n Hf Hlen Hlevel; [lia|].
  cbn [padding_loop]. unfold deref.
  destruct (h !! n) as [nd|]; cbn [bind]; [|discriminate].
  destruct (Root nd) as [r|]; [|discriminate].
  unfold isLast, FindLastNode, deref.
  destruct (h !! n) as [nd'|]; cbn [bind]; [|discriminate].
  destruct (Root nd') as [r'|]; [|discriminate].
  destruct (h !! r') as [rd|]; cbn [bind]; [|discriminate].
  assert (Hlast : exists b : bool,
             (l <- (if len (Nodes rd) =? 0 then Ok None
                    else Ok (last (Nodes rd)));
              Ok (bool_decide (l = Some n))) = Ok b).
  { destruct (len (Nodes rd) =? 0); eexists; reflexivity. }
  destruct Hlast as (b & ->). cbn [bind].
  assert (Hseg : (exists s : string,
                    (if b then strings_Repeat " " (int_add (IndentSize g) 1)
                     else sp <- strings_Repeat " " (IndentSize g);
                          Ok (EdgeTypeLink g ++ sp)%string) = Ok s)
                 \/ (if b then strings_Repeat " " (int_add (IndentSize g) 1)
                     else sp <- strings_Repeat " " (IndentSize g);
                          Ok (EdgeTypeLink g ++ sp)%string)
                    = Panic NegativeRepeatCount).
  { unfold strings_Repeat.
    destruct b; [destruct (int_add (IndentSize g) 1 <? 0)
                | destruct (IndentSize g <? 0)];
      cbn [bind]; eauto. }
  destruct Hseg as [(s & ->) | ->]; cbn [bind]; [|discriminate].
  unfold store_link.
  destruct (Z.ltb_spec level 0) as [?|Hlo]; cbn [orb bind]; [discriminate|].
  destruct (Z.leb_spec (len links) level) as [?|Hhi]; cbn [bind];
    [discriminate|].
  rewrite int_add_small by lia.
  apply IH.
  - lia.
  - unfold len in *. now rewrite length_insert.
  - unfold len in *. rewrite length_insert. lia.
Qed.

Lemma padding_budget (level : Z) n : padding g h level n <> OutOfFuel.
Proof.
  unfold padding.
  pose proof (int_wrap_range (level + 1)) as Hr. fold (int_add level 1) in Hr.
  destruct (Z.ltb_spec (int_add level 1) 0) as [?|Hpos]; [discriminate|].
  assert (Hlen : len (replicate (Z.to_nat (int_add level 1)) EmptyString)
                 = int_add level 1)
    by (unfold len; rewrite length_replicate; lia).
  pose proof (padding_loop_budget (S (Z.to_nat (int_add level 1)))
                (replicate (Z.to_nat (int_add level 1)) EmptyString)
                level n) as Hb.
  destruct (padding_loop g h (S (Z.to_nat (int_add level 1)))
              (replicate (Z.to_nat (int_add level 1)) EmptyString) level n);
    cbn [bind]; try discriminate.
  exfalso. apply Hb; [lia | lia | lia | reflexivity].
Qed.

Lemma padding_loop_chain n (lasts : list bool) :
  up_chain h n lasts ->
  forall (fuel : nat) (suffix : list string),
    (length lasts < fuel)%nat -> len lasts < 2 ^ 63 ->
    padding_loop g h fuel (replicate (length lasts) EmptyString ++ suffix)
      (len lasts - 1) n
    = Ok (map (segment g) lasts ++ suffix).
Proof.
  unfold len.
  induction 1 as [n nd Hn Hroot | n nd r rd lasts Hn Hroot Hrd Hup IH];
    intros fuel suffix Hfuel Hbound.
  - destruct fuel as [|fuel]; [simpl in Hfuel; lia|].
    cbn [padding_loop]. rewrite (deref_Some _ _ _ Hn). cbn [bind].
    rewrite Hroot. reflexivity.
  - rewrite length_app in Hfuel, Hbound |- *. cbn [length] in *.
    destruct fuel as [|fuel]; [lia|].
    cbn [padding_loop]. rewrite (deref_Some _ _ _ Hn). cbn [bind].
    rewrite Hroot. rewrite (isLast_chain _ _ _ _ Hn Hroot Hrd). cbn [bind].
    rewrite link_segment. cbn [bind].
    set (s := segment g (bool_decide (last (Nodes rd) = Some n))).
    replace (Z.of_nat (length lasts + 1) - 1) with (Z.of_nat (length lasts))
      by lia.
    unfold store_link, len.
    rewrite length_app, length_replicate.
    destruct (Z.ltb_spec (Z.of_nat (length lasts)) 0) as [?|_]; [lia|].
    destruct (Z.leb_spec
                (Z.of_nat (length lasts + 1 + length suffix))
                (Z.of_nat (length lasts))) as [?|_]; [lia|].
    cbn [orb bind]. rewrite Nat2Z.id.
    replace (length lasts + 1)%nat with (S (length lasts)) by lia.
    rewrite replicate_S_end, <- app_assoc.
    rewrite insert_app_r_alt by (rewrite length_replicate; lia).
    rewrite length_replicate, Nat.sub_diag. cbn [app].
    change (<[0%nat:=s]> (EmptyString :: suffix)) with (s :: suffix).
    rewrite int_add_small by lia.
    replace (Z.of_nat (length lasts) + -1) with (Z.of_nat (length lasts) - 1)
      by lia.
    rewrite IH by lia.
    rewrite map_app, <- app_assoc. reflexivity.
Qed.

Lemma padding_chain n (lasts : list bool) (level : Z) :
  up_chain h n lasts -> len lasts = level + 1 -> level + 1 < 2 ^ 63 ->
  padding g h level n = Ok (chain_padding g lasts).
Proof.
  intros Hup Hlen Hb. unfold padding.
  assert (0 <= len lasts) by (unfold len; lia).
  rewrite int_add_small by lia. rewrite <- Hlen.
  destruct (Z.ltb_spec (len lasts) 0) as [?|_]; [lia|].
  unfold len at 1 2. rewrite Nat2Z.id.
  rewrite <- (app_nil_r (replicate (length lasts) EmptyString)).
  replace level with (len lasts - 1) by lia.
  rewrite (padding_loop_chain n lasts Hup) by (unfold len in *; lia).
  cbn [bind]. rewrite app_nil_r, Join_empty_sep. reflexivity.
Qed.

Lemma renderValue_chain n (nd : Node T) (lasts : list bool) (level : Z) :
  h !! n = Some nd -> up_chain h n lasts ->
  len lasts = level + 1 -> level + 1 < 2 ^ 63 ->
  exists val, renderValue fmt_T g pf h level n = Ok val
              /\ fmt_v fmt_T val = value_text fmt_T g pf lasts (Value_ nd).
Proof.
  intros Hn Hup Hlen Hb. unfold renderValue, value_text.
  rewrite (deref_Some _ _ _ Hn). cbn [bind].
  destruct (split_lines (printValue fmt_T pf (Value_ nd)))
    as [|l0 [|l1 rest]].
  - exists (Value_ nd). split; reflexivity.
  - exists (Value_ nd). split; reflexivity.
  - replace (len (l0 :: l1 :: rest) <? 2) with false
      by (symmetry; apply Z.ltb_ge; unfold len; simpl length; lia).
    rewrite (padding_chain n lasts level Hup Hlen Hb). cbn [bind].
    eexists. split; reflexivity.
Qed.

Lemma printValues_chain n (nd : Node T) (anc lasts : list bool)
  (le : list Z) (edge : string) (level : Z) :
  h !! n = Some nd -> up_chain h n lasts ->
  len anc = level -> len lasts = level + 1 -> level + 1 < 2 ^ 63 ->
  (forall j, 0 <= j < level -> isEnded le j = flag_at anc j) ->
  printValues fmt_T g pf h level le edge n =
  Ok (chain_padding g anc ++ edge ++ " "
      ++ (if is_nil (Meta nd) then "" else printMeta fmt_T pf (Meta nd))
      ++ value_text fmt_T g pf lasts (Value_ nd) ++ nl)%string.
Proof.
  intros Hn Hup Hanc Hlen Hb Hle. unfold printValues.
  destruct (renderValue_chain n nd lasts level Hn Hup Hlen Hb)
    as (val & -> & Hval).
  replace (Z.to_nat level) with (length anc)
    by (unfold len in Hanc; lia).
  rewrite print_indent_chain.
  - cbn [bind]. rewrite (deref_Some _ _ _ Hn). cbn [bind].
    rewrite Hval. reflexivity.
  - lia.
  - lia.
  - intros j Hj. rewrite Hle by (unfold len in Hanc; lia). unfold flag_at.
    destruct (Z.ltb_spec (0 + Z.of_nat j) 0) as [?|_]; [lia|].
    now rewrite Z.add_0_l, Nat2Z.id.
Qed.

Lemma diagram_node_eq (anc : list bool) (b : bool) l m v ks :
  diagram_node fmt_T g pf anc b (Tree l m v ks) =
  (chain_padding g anc ++ connector g b ++ " "
   ++ (if is_nil m then "" else printMeta fmt_T pf m)
   ++ value_text fmt_T g pf (anc ++ [b]) v ++ nl
   ++ diagram_forest fmt_T g pf (anc ++ [b]) ks)%string.
Proof.
  cbn [diagram_node]. do 6 f_equal.
  induction ks as [|k ks IH]; [reflexivity|].
  cbn [diagram_forest]. now rewrite IH.
Qed.

Lemma ended_step (le : list Z) (anc : list bool) (b : bool) :
  (forall j, isEnded le j = flag_at anc j) ->
  forall j,
    isEnded (if b then le ++ [len anc] else le) j = flag_at (anc ++ [b]) j.
Proof.
  intros Hle j. unfold flag_at, len.
  assert (Hj := Hle j). unfold flag_at in Hj.
  destruct (Z.ltb_spec j 0) as [Hneg|Hpos].
  - destruct b; [|exact Hj].
    rewrite isEnded_app, Hj. simpl.
    apply Z.eqb_neq. lia.
  - destruct (Nat.lt_ge_cases (Z.to_nat j) (length anc)) as [Hlt|Hge].
    + rewrite app_nth1 by exact Hlt.
      destruct b; [|exact Hj].
      rewrite isEnded_app, Hj.
      replace (Z.of_nat (length anc) =? j) with false
        by (symmetry; apply Z.eqb_neq; lia).
      now rewrite orb_false_r.
    + rewrite app_nth2 by exact Hge.
      rewrite nth_overflow in Hj by exact Hge.
      destruct (Nat.eq_dec (Z.to_nat j) (length anc)) as [E|NE].
      * rewrite E, Nat.sub_diag. cbn [nth].
        destruct b; [|exact Hj].
        rewrite isEnded_app, Hj.
        replace (Z.of_nat (length anc) =? j) with true
          by (symmetry; apply Z.eqb_eq; lia).
        reflexivity.
      * replace (nth (Z.to_nat j - length anc) [b] false) with false.
        2:{ destruct (Z.to_nat j - length anc)%nat as [|[|i]] eqn:E;
              [lia | reflexivity | reflexivity]. }
        destruct b; [|exact Hj].
        rewrite isEnded_app, Hj.
        replace (Z.of_nat (length anc) =? j) with false
          by (symmetry; apply Z.eqb_neq; lia).
        reflexivity.
Qed.

(** Among distinct children, only the one in last position is the one
    [FindLastNode] returns. *)
Lemma last_position (done : list (tree T)) k (rest : list (tree T)) :
  NoDup (map tloc (done ++ k :: rest)) ->
  bool_decide (last (map tloc (done ++ k :: rest)) = Some (tloc k))
  = is_last_of rest.
Proof.
  intros Hnd. rewrite map_app in *. cbn [map] in *.
  destruct rest as [|k' rest]; cbn [is_last_of map].
  - rewrite last_snoc. now apply bool_decide_eq_true.
  - apply bool_decide_eq_false. intros E.
    apply NoDup_app in Hnd. destruct Hnd as (_ & _ & Hnd).
    apply NoDup_cons in Hnd. destruct Hnd as (Hnot & _).
    apply Hnot.
    rewrite last_app_cons, last_cons_cons in E.
    apply last_Some_elem_of in E. exact E.
Qed.

Lemma last_index (done : list (tree T)) k (rest : list (tree T)) :
  (len done =? len (map tloc (done ++ k :: rest)) - 1) = is_last_of rest.
Proof.
  unfold len. rewrite length_map, length_app. cbn [length].
  destruct rest as [|k' rest]; cbn [is_last_of length].
  - apply Z.eqb_eq. lia.
  - apply Z.eqb_neq. lia.
Qed.

Lemma height_kid l m v ks k :
  In k ks -> (height k < height (Tree l m v ks))%nat.
Proof.
  intros Hin.
  pose proof (height_kids l m v ks (pred (height (Tree l m v ks)))) as H.
  rewrite Forall_forall in H.
  assert (Hk : (height k <= pred (height (Tree l m v ks)))%nat).
  { apply H; [simpl; lia | now apply list_elem_of_In]. }
  simpl in *. lia.
Qed.

(** The renderer against the diagram: [printNodes], run on the children
    [ks] of a well-formed node [p] whose chain of flags is [anc], writes the
    diagram of [ks]. *)
Lemma printNodes_repr (fuel : nat) :
  forall (level : Z) (le : list Z) (anc : list bool) p (pd : Node T) ks,
    h !! p = Some pd -> Nodes pd = map tloc ks -> NoDup (map tloc ks) ->
    Forall (repr h (Some p)) ks -> up_chain h p anc -> len anc = level ->
    (forall j, isEnded le j = flag_at anc j) ->
    (0 < fuel)%nat -> Forall (fun k => (height k <= fuel)%nat) ks ->
    Forall (fun k => level + Z.of_nat (height k) < 2 ^ 63) ks ->
    printNodes fmt_T g pf h fuel level le (map tloc ks)
    = Ok (diagram_forest fmt_T g pf anc ks).
Proof.
  induction fuel as [|fuel IH];
    intros level le anc p pd ks Hp Hnodes Hnd Hks Hup Hlen Hle Hpos Hh Hb;
    [lia|].
  cbn [printNodes].
  enough (Hloop : forall rest done le0,
             ks = done ++ rest ->
             (forall j, isEnded le0 j = flag_at anc j) ->
             printNodes_range fmt_T g pf h level (len (map tloc ks))
               (printNodes fmt_T g pf h fuel (int_add level 1))
               (len done) le0 (map tloc rest)
             = Ok (diagram_forest fmt_T g pf anc rest)).
  { apply (Hloop ks [] le); [reflexivity | exact Hle]. }
  induction rest as [|k rest IHrest]; intros done le0 Hsplit Hle0;
    [reflexivity|].
  cbn [map printNodes_range].
  assert (Hlevel : 0 <= level) by (unfold len in Hlen; lia).
  set (b := is_last_of rest).
  assert (Hlast : (len done =? len (map tloc ks) - 1) = b)
    by (rewrite Hsplit; apply last_index).
  rewrite !Hlast.
  assert (Hin : In k ks) by (rewrite Hsplit; apply in_elt).
  rewrite Forall_forall in Hks, Hh, Hb.
  assert (Hk := Hks k (proj2 (list_elem_of_In _ _) Hin)).
  assert (Hhk := Hh k (proj2 (list_elem_of_In _ _) Hin)).
  assert (Hbk := Hb k (proj2 (list_elem_of_In _ _) Hin)).
  pose proof (height_pos k) as Hk1.
  destruct k as [c m v kks].
  apply repr_unfold in Hk. destruct Hk as (Hc & Hndk & Hkks).
  assert (Hupc : up_chain h c (anc ++ [b])).
  { unfold b.
    rewrite <- (last_position done (Tree c m v kks) rest)
      by (rewrite <- Hsplit; exact Hnd).
    rewrite <- Hsplit, <- Hnodes.
    eapply up_step; [exact Hc | reflexivity | exact Hp | exact Hup]. }
  assert (Hlen' : len (anc ++ [b]) = level + 1).
  { unfold len in *. rewrite length_app. cbn [length]. lia. }
  assert (Hle' : forall j,
             isEnded (if b then le0 ++ [level] else le0) j
             = flag_at (anc ++ [b]) j).
  { rewrite <- Hlen. now apply ended_step. }
  rewrite (printValues_chain c _ anc (anc ++ [b])
             (if b then le0 ++ [level] else le0) _ level Hc Hupc Hlen Hlen').
  2:{ lia. }
  2:{ intros j Hj. destruct b; [|apply Hle0].
      rewrite isEnded_app, Hle0.
      replace (level =? j) with false by (symmetry; apply Z.eqb_neq; lia).
      apply orb_false_r. }
  cbn [bind Meta Value_ tloc]. rewrite (deref_Some _ _ _ Hc).
  cbn [bind Nodes].
  assert (Hbelow :
            (if 0 <? len (map tloc kks)
             then printNodes fmt_T g pf h fuel (int_add level 1)
                    (if b then le0 ++ [level] else le0) (map tloc kks)
             else Ok EmptyString)
            = Ok (diagram_forest fmt_T g pf (anc ++ [b]) kks)).
  { destruct kks as [|k1 kks]; [reflexivity|].
    replace (0 <? len (map tloc (k1 :: kks))) with true
      by (symmetry; apply Z.ltb_lt; unfold len; simpl length; lia).
    rewrite int_add_small by lia.
    pose proof (height_pos k1) as Hk1pos.
    pose proof (height_kid c m v (k1 :: kks) k1 (or_introl eq_refl)) as Hlt1.
    eapply (IH (level + 1) _ (anc ++ [b]) c);
      [exact Hc | reflexivity | exact Hndk | exact Hkks | exact Hupc
      | exact Hlen' | exact Hle' | lia | |].
    - apply (height_kids c m v). exact Hhk.
    - apply Forall_forall. intros k' Hk'.
      apply list_elem_of_In in Hk'.
      pose proof (height_kid c m v (k1 :: kks) k' Hk'). lia. }
  rewrite Hbelow. cbn [bind].
  assert (Hothers :
            printNodes_range fmt_T g pf h level (len (map tloc ks))
              (printNodes fmt_T g pf h fuel (int_add level 1))
              (len done + 1) (if b then le0 ++ [level] else le0)
              (map tloc rest)
            = Ok (diagram_forest fmt_T g pf anc rest)).
  { destruct rest as [|k2 rest]; [reflexivity|].
    replace (len done + 1) with (len (done ++ [Tree c m v kks]))
      by (unfold len; rewrite length_app; simpl length; lia).
    apply IHrest; [now rewrite <- app_assoc | exact Hle0]. }
  rewrite Hothers. cbn [bind diagram_forest].
  rewrite diagram_node_eq. fold b.
  rewrite !append_assoc. reflexivity.
Qed.

(** The fault of [padding] below a branch: called at level 0 on a node
    whose parent has a parent, the loop stores a second link at index -1. *)
Lemma padding_below_branch n (nd pd qd : Node T) (p q : loc) :
  h !! n = Some nd -> Root nd = Some p ->
  h !! p = Some pd -> Root pd = Some q -> h !! q = Some qd ->
  padding g h 0 n = Panic IndexOutOfRange.
Proof.
  intros Hn Hnr Hp Hpr Hq. unfold padding.
  rewrite (int_add_small 0 1) by lia.
  change (0 + 1 <? 0) with false. change (Z.to_nat (0 + 1)) with 1%nat.
  cbn [replicate padding_loop].
  rewrite (deref_Some _ _ _ Hn). cbn [bind]. rewrite Hnr.
  rewrite (isLast_chain _ _ _ _ Hn Hnr Hp). cbn [bind].
  rewrite link_segment. cbn [bind].
  unfold store_link at 1. cbn [bind].
  change (((0 <? 0) || (len [EmptyString] <=? 0))%bool) with false.
  cbn [bind]. rewrite (int_add_small 0 (-1)) by lia.
  rewrite (deref_Some _ _ _ Hp). cbn [bind]. rewrite Hpr.
  rewrite (isLast_chain _ _ _ _ Hp Hpr Hq). cbn [bind].
  rewrite link_segment. cbn [bind].
  reflexivity.
Qed.

Lemma Bytes_below_branch (fuel : nat) n (nd pd qd : Node T) (p q : loc) :
  h !! n = Some nd -> Root nd = Some p ->
  h !! p = Some pd -> Root pd = Some q -> h !! q = Some qd ->
  2 <= len (split_lines (printValue fmt_T pf (Value_ nd))) ->
  Bytes fmt_T g pf h fuel n = Panic IndexOutOfRange.
Proof.
  intros Hn Hnr Hp Hpr Hq Hlines.
  assert (Hline : forall le edge,
             printValues fmt_T g pf h 0 le edge n = Panic IndexOutOfRange).
  { intros le edge. unfold printValues. change (Z.to_nat 0) with O.
    cbn [print_indent bind]. unfold renderValue.
    rewrite (deref_Some _ _ _ Hn). cbn [bind].
    replace (len (split_lines (printValue fmt_T pf (Value_ nd))) <? 2)
      with false by (symmetry; apply Z.ltb_ge; lia).
    now rewrite (padding_below_branch n nd pd qd p q). }
  unfold Bytes. rewrite (deref_Some _ _ _ Hn). cbn [bind]. rewrite Hnr.
  destruct (len (Nodes nd) =? 0); rewrite Hline; reflexivity.
Qed.

End Render.



Lemma bind_Ok {A B : Type} (r : result A) (k : A -> result B) (b : B) :
  bind r k = Ok b -> exists a, r = Ok a /\ k a = Ok b.
Proof. destruct r as [a| |]; simpl; [eauto | discriminate | discriminate]. Qed.

Lemma flag_at_nil (j : Z) : flag_at [] j = false.
Proof.
  unfold flag_at. destruct (j <? 0); [reflexivity|].
  now destruct (Z.to_nat j).
Qed.

(** What [Bytes] writes for a well-formed tree, called on its root. *)
Lemma Bytes_root_repr (g : Globals) (pf : PrintFunc T) h t (fuel : nat) :
  0 <= IndentSize g < 2 ^ 63 - 1 ->
  repr h None t -> (height t <= S fuel)%nat ->
  Z.of_nat (height t) < 2 ^ 63 ->
  Bytes fmt_T g pf h fuel (tloc t) = Ok (diagram fmt_T g pf t).
Proof.
  intros Hind Hr Hh Hb. destruct t as [r m v ks].
  pose proof (proj1 (repr_unfold _ _ _ _ _ _) Hr) as (Hl & Hnd & Hks).
  unfold Bytes, diagram. cbn [tloc tmeta tvalue tkids].
  rewrite (deref_Some _ _ _ Hl). cbn [bind Root Nodes fst snd].
  unfold printNode. cbn [Meta Value_].
  destruct ks as [|k ks].
  - cbn [map diagram_forest]. change (0 <? len (@nil loc)) with false.
    cbn [bind]. now rewrite !append_assoc.
  - replace (0 <? len (map tloc (k :: ks))) with true
      by (symmetry; apply Z.ltb_lt; unfold len; simpl length; lia).
    pose proof (height_pos k) as Hk1.
    pose proof (height_kid r m v (k :: ks) k (or_introl eq_refl)) as Hlt.
    rewrite (printNodes_repr g pf h Hind fuel 0 [] []
               r _ (k :: ks) Hl eq_refl Hnd Hks).
    + cbn [bind]. now rewrite !append_assoc.
    + eapply up_root; [exact Hl | reflexivity].
    + reflexivity.
    + intros j. now rewrite flag_at_nil.
    + lia.
    + apply (height_kids r m v). exact Hh.
    + apply Forall_forall. intros k' Hk'. apply list_elem_of_In in Hk'.
      pose proof (height_kid r m v (k :: ks) k' Hk'). lia.
Qed.

(** ** Rendering: results *)

(** C1.  Rendering a well-formed tree from its root writes its [diagram]:
    there, the text of a node whose value renders to several lines has every
    line after the first prefixed by [chain_padding] of the node's chain,
    one [segment] per level from the root's children down to the node
    itself: [IndentSize + 1] spaces where the node of that level is the last
    child of its parent, the link glyph and [IndentSize] spaces where it is
    not. *)
Theorem Bytes_multiline_padding (g : Globals) (pf : PrintFunc T) h t
  (fuel : nat) :
  0 <= IndentSize g < 2 ^ 63 - 1 ->
  repr h None t -> (height t <= S fuel)%nat ->
  Z.of_nat (height t) < 2 ^ 63 ->
  Bytes fmt_T g pf h fuel (tloc t) = Ok (diagram fmt_T g pf t)
  /\ forall (lasts : list bool) v (l0 l1 : string) (rest : list string),
       split_lines (printValue fmt_T pf v) = l0 :: l1 :: rest ->
       value_text fmt_T g pf lasts v =
       strings_Join
         (l0 :: map (fun line : string =>
                       (chain_padding g lasts ++ line)%string)
                  (l1 :: rest)) nl.
Proof.
  intros Hind Hr Hh Hb. split.
  - now apply Bytes_root_repr.
  - intros lasts v l0 l1 rest E. unfold value_text. now rewrite E.
Qed.

Lemma printValues_ends_nl (g : Globals) (pf : PrintFunc T) h (level : Z)
  (le : list Z) (edge : string) n (out : string) :
  printValues fmt_T g pf h level le edge n = Ok out ->
  exists body, out = (body ++ nl)%string.
Proof.
  unfold printValues. intros H.
  apply bind_Ok in H. destruct H as (indent & _ & H).
  apply bind_Ok in H. destruct H as (val & _ & H).
  apply bind_Ok in H. destruct H as (nd & _ & H).
  injection H as <-.
  exists (indent ++ edge ++ " "
          ++ (if is_nil (Meta nd) then "" else printMeta fmt_T pf (Meta nd))
          ++ fmt_v fmt_T val)%string.
  now rewrite !append_assoc.
Qed.

Lemma printNodes_ends_nl (g : Globals) (pf : PrintFunc T) h (fuel : nat) :
  forall (level : Z) (le : list Z) (nodes : list loc) (out : string),
    printNodes fmt_T g pf h fuel level le nodes = Ok out ->
    out = EmptyString \/ exists body, out = (body ++ nl)%string.
Proof.
  induction fuel as [|fuel IH]; intros level le nodes out H;
    [discriminate|].
  cbn [printNodes] in H. revert H.
  generalize (len nodes) as total. generalize 0 as i. revert le out.
  induction nodes as [|node rest IHrest]; intros le out i total H.
  - injection H as <-. now left.
  - cbn [printNodes_range] in H.
    apply bind_Ok in H. destruct H as (line & Hline & H).
    apply bind_Ok in H. destruct H as (nd & _ & H).
    apply bind_Ok in H. destruct H as (below & Hbelow & H).
    apply bind_Ok in H. destruct H as (others & Hothers & H).
    injection H as <-. right.
    apply printValues_ends_nl in Hline. destruct Hline as (b1 & ->).
    assert (Hb : below = EmptyString
                 \/ exists body, below = (body ++ nl)%string).
    { destruct (0 <? len (Nodes nd)).
      - eapply IH. exact Hbelow.
      - injection Hbelow as <-. now left. }
    apply IHrest in Hothers.
    destruct Hothers as [-> | (b3 & ->)].
    + destruct Hb as [-> | (b2 & ->)].
      * exists b1. now rewrite !append_nil_r.
      * exists ((b1 ++ nl) ++ b2)%string.
        now rewrite append_nil_r, !append_assoc.
    + exists ((b1 ++ nl) ++ below ++ b3)%string.
      now rewrite !append_assoc.
Qed.

(** C9, as the code has it.  A parentless node without children renders as
    its content without connector and one line break after it.  The content
    is the meta as the meta formatter prints it and two spaces, when a meta
    is set, and then the value as the value formatter prints it: the value
    alone when there is no meta.  The render has one line break more than
    the content, so it is one line exactly when the content has no line
    break.  Whatever a parentless node renders to ends with a line break;
    and on a well-formed tree the render of the root does return such a
    text. *)
Theorem Bytes_root_line (g : Globals) (pf : PrintFunc T) h n
  (nd : Node T) (fuel : nat) :
  h !! n = Some nd -> Root nd = None ->
  (Nodes nd = [] ->
   Bytes fmt_T g pf h fuel n = Ok (printNode fmt_T pf nd ++ nl)%string
   /\ printNode fmt_T pf nd
      = ((if is_nil (Meta nd) then ""
          else (match MetaFunc pf with
                | Some f => f (Meta nd)
                | None => "[" ++ fmt_v fmt_T (Meta nd) ++ "]"
                end) ++ "  ")
         ++ printValue fmt_T pf (Value_ nd))%string
   /\ (Meta nd = VNil ->
       printNode fmt_T pf nd = printValue fmt_T pf (Value_ nd))
   /\ count_nl (printNode fmt_T pf nd ++ nl)
      = S (count_nl (printNode fmt_T pf nd)))
  /\ (forall out, Bytes fmt_T g pf h fuel n = Ok out ->
        exists body, out = (body ++ nl)%string)
  /\ (forall t, repr h None t -> tloc t = n ->
        0 <= IndentSize g < 2 ^ 63 - 1 ->
        (height t <= S fuel)%nat -> Z.of_nat (height t) < 2 ^ 63 ->
        exists body, Bytes fmt_T g pf h fuel n = Ok (body ++ nl)%string).
Proof.
  intros Hn Hroot.
  assert (Hends : forall out, Bytes fmt_T g pf h fuel n = Ok out ->
                    exists body, out = (body ++ nl)%string).
  { intros out H. unfold Bytes in H.
    rewrite (deref_Some _ _ _ Hn) in H. cbn [bind] in H.
    rewrite Hroot in H. cbn [bind fst snd] in H.
    apply bind_Ok in H. destruct H as (below & Hbelow & H).
    injection H as <-.
    assert (Hb : below = EmptyString
                 \/ exists body, below = (body ++ nl)%string).
    { destruct (0 <? len (Nodes nd)).
      - eapply printNodes_ends_nl. exact Hbelow.
      - injection Hbelow as <-. now left. }
    destruct Hb as [-> | (b & ->)].
    - exists (printNode fmt_T pf nd). now rewrite append_nil_r.
    - exists ((printNode fmt_T pf nd ++ nl) ++ b)%string.
      now rewrite !append_assoc. }
  split; [|split].
  - intros Hnodes. split; [|split; [|split]].
    + unfold Bytes.
      rewrite (deref_Some _ _ _ Hn). cbn [bind]. rewrite Hroot, Hnodes.
      change (0 <? len (@nil loc)) with false. cbn [bind fst snd].
      now rewrite append_nil_r.
    + reflexivity.
    + intros Hmeta. unfold printNode. now rewrite Hmeta.
    + generalize (printNode fmt_T pf nd) as content.
      induction content as [|c content IH]; [reflexivity|].
      cbn [String.append count_nl]. now rewrite IH.
  - exact Hends.
  - intros t Hr <- Hind Hh Hb.
    pose proof (Bytes_root_repr g pf h t fuel Hind Hr Hh Hb) as E.
    destruct (Hends _ E) as (body & Hbody).
    exists body. now rewrite E, Hbody.
Qed.

(** C3, as the code has it.  Called on a node that has a parent, [Bytes]
    starts the node's own line with the last-branch glyph when the node has
    no children and with the mid-branch glyph when it has some; the place of
    the node among its siblings plays no part. *)
Theorem Bytes_child_connector (g : Globals) (pf : PrintFunc T) h n
  (nd : Node T) (p : loc) (fuel : nat) :
  h !! n = Some nd -> Root nd = Some p ->
  Bytes fmt_T g pf h fuel n =
  (val <- renderValue fmt_T g pf h 0 n;
   below <- match Nodes nd with
            | [] => Ok EmptyString
            | _ :: _ => printNodes fmt_T g pf h fuel 0 [] (Nodes nd)
            end;
   Ok ((match Nodes nd with
        | [] => EdgeTypeEnd g
        | _ :: _ => EdgeTypeMid g
        end) ++ " "
       ++ (if is_nil (Meta nd) then "" else printMeta fmt_T pf (Meta nd))
       ++ fmt_v fmt_T val ++ nl ++ below)%string).
Proof.
  intros Hn Hroot. unfold Bytes.
  rewrite (deref_Some _ _ _ Hn). cbn [bind]. rewrite Hroot.
  destruct (Nodes nd) as [|c cs] eqn:Hnodes.
  - change (len (@nil loc) =? 0) with true.
    change (0 <? len (@nil loc)) with false.
    unfold printValues. change (Z.to_nat 0) with O. cbn [print_indent bind].
    destruct (renderValue fmt_T g pf h 0 n) as [val| |]; cbn [bind];
      [|reflexivity|reflexivity].
    rewrite (deref_Some _ _ _ Hn). cbn [bind fst snd].
    rewrite ?append_assoc, ?append_nil_r. reflexivity.
  - replace (len (c :: cs) =? 0) with false
      by (symmetry; apply Z.eqb_neq; unfold len; simpl length; lia).
    replace (0 <? len (c :: cs)) with true
      by (symmetry; apply Z.ltb_lt; unfold len; simpl length; lia).
    unfold printValues. change (Z.to_nat 0) with O. cbn [print_indent bind].
    destruct (renderValue fmt_T g pf h 0 n) as [val| |]; cbn [bind];
      [|reflexivity|reflexivity].
    rewrite (deref_Some _ _ _ Hn). cbn [bind fst snd].
    destruct (printNodes fmt_T g pf h fuel 0 [] (c :: cs)) as [below| |];
      cbn [bind]; [|reflexivity|reflexivity].
    rewrite ?append_assoc, ?append_nil_r. reflexivity.
Qed.

Lemma AddNodes_heap (vs : list (Value T)) :
  forall h n (nd : Node T),
    h !! n = Some nd ->
    AddNodes h n vs =
    Ok (<[n := set_Nodes nd (Nodes nd ++ seq (length h) (length vs))]> h
        ++ map (leaf_node n) vs, n).
Proof.
  induction vs as [|v vs IH]; intros h n nd Hn.
  - cbn [AddNodes length seq map]. rewrite !app_nil_r.
    replace (set_Nodes nd (Nodes nd)) with nd by (now destruct nd).
    now rewrite list_insert_id by exact Hn.
  - assert (Hlt : (n < length h)%nat) by (eapply lookup_lt_Some; exact Hn).
    cbn [AddNodes]. unfold AddNode, append_child, alloc.
    rewrite (deref_Some _ _ _ Hn). cbn [bind fst snd].
    rewrite insert_app_l by exact Hlt.
    set (nd1 := set_Nodes nd (Nodes nd ++ [length h])).
    rewrite (IH _ n nd1).
    2:{ rewrite lookup_app_l by (rewrite length_insert; exact Hlt).
        now apply list_lookup_insert_eq. }
    f_equal. f_equal.
    rewrite insert_app_l by (rewrite length_insert; exact Hlt).
    rewrite list_insert_insert_eq, <- app_assoc.
    rewrite length_app, length_insert. cbn [length map app seq].
    unfold nd1, set_Nodes. cbn [Nodes Root Meta Value_].
    rewrite <- app_assoc. cbn [app].
    replace (length h + 1)%nat with (S (length h)) by lia.
    reflexivity.
Qed.

Lemma leaves_range (g : Globals) (pf : PrintFunc T) h (r base : loc)
  (descend : list Z -> list loc -> result string) (total : Z) :
  forall (rest done : list (Value T)) (le0 : list Z),
    total = len done + len rest ->
    (forall (i : nat) v, rest !! i = Some v ->
       h !! (base + length done + i)%nat = Some (leaf_node r v)) ->
    Forall (fun v => len (split_lines (printValue fmt_T pf v)) < 2) rest ->
    printNodes_range fmt_T g pf h 0 total descend (len done) le0
      (seq (base + length done) (length rest))
    = Ok (leaf_lines fmt_T g rest).
Proof.
  induction rest as [|v rest IH]; intros done le0 Htotal Hcells Hone;
    [reflexivity|].
  cbn [length seq printNodes_range].
  inversion Hone as [|? ? Hv Hrest]; subst.
  assert (Hc : h !! (base + length done)%nat = Some (leaf_node r v)).
  { specialize (Hcells O v eq_refl). now rewrite Nat.add_0_r in Hcells. }
  assert (Hlast : (len done =? len done + len (v :: rest) - 1)
                  = match rest with [] => true | _ => false end).
  { unfold len. destruct rest; simpl length;
      [apply Z.eqb_eq | apply Z.eqb_neq]; lia. }
  rewrite !Hlast.
  set (b := match rest with [] => true | _ => false end).
  unfold printValues at 1. change (Z.to_nat 0) with O.
  cbn [print_indent bind]. unfold renderValue.
  rewrite (deref_Some _ _ _ Hc). cbn [bind leaf_node Value_ Meta Nodes].
  apply Z.ltb_lt in Hv. rewrite Hv. cbn [bind is_nil].
  change (0 <? len (@nil loc)) with false. cbn [bind].
  assert (Hothers :
            printNodes_range fmt_T g pf h 0
              (len done + len (v :: rest)) descend (len done + 1)
              (if b then le0 ++ [0] else le0)
              (seq (S (base + length done)) (length rest))
            = Ok (leaf_lines fmt_T g rest)).
  { replace (len done + 1) with (len (done ++ [v]))
      by (unfold len; rewrite length_app; simpl length; lia).
    replace (S (base + length done)) with (base + length (done ++ [v]))%nat
      by (rewrite length_app; simpl length; lia).
    apply IH.
    - unfold len. rewrite length_app. simpl length. lia.
    - intros i w Hw. rewrite length_app. simpl length.
      replace (base + (length done + 1) + i)%nat
        with (base + length done + S i)%nat by lia.
      apply Hcells. exact Hw.
    - exact Hrest. }
  rewrite Hothers. cbn [bind leaf_lines]. fold b.
  unfold connector.
  rewrite ?append_assoc, ?append_nil_r. reflexivity.
Qed.

(** C5.  Appending [N] one-line leaves to a parentless, childless node and
    rendering it writes the node's line and then [N] lines, one per leaf in
    the order of the calls, each with the mid-branch glyph but the last,
    which has the last-branch glyph. *)
Theorem Bytes_appended_leaves (g : Globals) (pf : PrintFunc T) h n
  (nd : Node T) (vs : list (Value T)) (fuel : nat) :
  h !! n = Some nd -> Root nd = None -> Nodes nd = [] ->
  Forall (fun v => len (split_lines (printValue fmt_T pf v)) < 2) vs ->
  (0 < fuel)%nat ->
  exists h',
    AddNodes h n vs = Ok (h', n)
    /\ Bytes fmt_T g pf h' fuel n =
       Ok (printNode fmt_T pf nd ++ nl ++ leaf_lines fmt_T g vs)%string.
Proof.
  intros Hn Hroot Hnodes Hone Hfuel.
  assert (Hlt : (n < length h)%nat) by (eapply lookup_lt_Some; exact Hn).
  eexists. split; [apply (AddNodes_heap vs h n nd Hn)|].
  rewrite Hnodes. cbn [app].
  set (h' := <[n:=set_Nodes nd (seq (length h) (length vs))]> h
             ++ map (leaf_node n) vs).
  assert (Hn' : h' !! n = Some (set_Nodes nd (seq (length h) (length vs)))).
  { unfold h'. rewrite lookup_app_l by (rewrite length_insert; exact Hlt).
    now apply list_lookup_insert_eq. }
  unfold Bytes. rewrite (deref_Some _ _ _ Hn').
  unfold set_Nodes. cbn [bind Root Nodes Meta Value_].
  rewrite Hroot. cbn [bind fst snd].
  unfold printNode. cbn [Meta Value_].
  destruct fuel as [|fuel]; [lia|]. cbn [printNodes].
  pose proof (leaves_range g pf h' n (length h)
                (printNodes fmt_T g pf h' fuel (int_add 0 1))
                (@len loc (seq (length h) (length vs))) vs [] []) as L.
  cbn [length] in L. rewrite Nat.add_0_r in L.
  change (len (@nil (Value T))) with 0 in L.
  rewrite L; clear L.
  - destruct (0 <? @len loc (seq (length h) (length vs))) eqn:E.
    + cbn [bind]. rewrite ?append_assoc. reflexivity.
    + apply Z.ltb_ge in E. unfold len in E. rewrite length_seq in E.
      destruct vs; [|simpl length in E; lia].
      cbn [bind leaf_lines]. rewrite ?append_assoc, ?append_nil_r.
      reflexivity.
  - unfold len. rewrite length_seq. lia.
  - intros i w Hw.
    unfold h'. rewrite lookup_app_r by (rewrite length_insert; lia).
    rewrite length_insert.
    replace (length h + i - length h)%nat with i by lia.
    rewrite list_lookup_fmap. rewrite Hw. reflexivity.
  - exact Hone.
Qed.

(** ** Tree model: results *)

(** C8.  [Branch] returns its receiver and changes the store only at the
    receiver, where it clears the back pointer: value, meta and children stay,
    every other node stays (so the former parent still lists the node), a
    second call changes nothing more, and a call on a parentless node changes
    nothing. *)
Theorem Branch_clears_parent h n (nd : Node T) :
  h !! n = Some nd ->
  exists h',
    Branch h n = Ok (h', n)
    /\ h' !! n = Some {| Root := None; Meta := Meta nd;
                         Value_ := Value_ nd; Nodes := Nodes nd |}
    /\ (forall l, l <> n -> h' !! l = h !! l)
    /\ length h' = length h
    /\ Branch h' n = Ok (h', n)
    /\ (Root nd = None -> h' = h).
Proof.
  intros Hn. exists (<[n := set_Root nd None]> h).
  assert (Hlt : (n < length h)%nat) by (eapply lookup_lt_Some; exact Hn).
  assert (Hn' : <[n := set_Root nd None]> h !! n = Some (set_Root nd None))
    by (now apply list_lookup_insert_eq).
  repeat split.
  - unfold Branch. now rewrite (deref_Some _ _ _ Hn).
  - exact Hn'.
  - intros l Hl. now apply list_lookup_insert_ne.
  - apply length_insert.
  - unfold Branch. rewrite (deref_Some _ _ _ Hn'). cbn [bind].
    rewrite list_insert_insert_eq. reflexivity.
  - intros Hroot. apply list_insert_id.
    destruct nd as [r m v ns]. simpl in Hroot. subst r. exact Hn.
Qed.

End Properties.

(** * Further properties of the package *)

Section Further.

Context {T : Type}.
Variable fmt_T : T -> string.
Variable deep_T : T -> T -> bool.

Implicit Types (h : list (Node T)) (t k d : tree T) (ks : list (tree T)).
Implicit Types (n l c : loc) (m v : Value T).

(** ** Trees and the store *)

Lemma descendants_cons k ks l m v :
  descendants (Tree l m v (k :: ks)) =
  k :: descendants k ++ descendants (Tree l m v ks).
Proof. reflexivity. Qed.

Lemma descendants_elem d l m v ks :
  d ∈ descendants (Tree l m v ks) <->
  exists k, k ∈ ks /\ (d = k \/ d ∈ descendants k).
Proof.
  induction ks as [|k ks IH].
  - simpl. split.
    + intros H. now apply elem_of_nil in H.
    + intros (k & Hk & _). now apply elem_of_nil in Hk.
  - rewrite descendants_cons, elem_of_cons, elem_of_app, IH. split.
    + intros [-> | [Hd | (k' & Hk' & Hd)]].
      * exists k. split; [apply elem_of_cons; now left | now left].
      * exists k. split; [apply elem_of_cons; now left | now right].
      * exists k'. split; [apply elem_of_cons; now right | exact Hd].
    + intros (k' & Hk' & Hd). apply elem_of_cons in Hk'.
      destruct Hk' as [-> | Hk'].
      * destruct Hd as [-> | Hd]; [now left | right; now left].
      * right. right. exists k'. now split.
Qed.

(** The descendants of a tree in the store are trees in the store, and
    lower than it. *)
Lemma descendants_shape (bound : nat) :
  forall h t d,
    (height t <= bound)%nat -> shape h t -> d ∈ descendants t ->
    shape h d /\ (height d < height t)%nat.
Proof.
  induction bound as [|bound IH]; intros h t d Hh Hs Hd.
  - pose proof (height_pos t). lia.
  - destruct t as [l m v ks].
    apply descendants_elem in Hd. destruct Hd as (k & Hk & Hd).
    pose proof (height_kids l m v ks bound Hh) as Hks.
    apply shape_unfold in Hs. destruct Hs as (_ & Hss).
    rewrite Forall_forall in Hks, Hss.
    assert (Hlt : (height k < height (Tree l m v ks))%nat)
      by (apply height_kid; now apply list_elem_of_In).
    destruct Hd as [-> | Hd].
    + split; [now apply Hss | exact Hlt].
    + destruct (IH h k d (Hks k Hk) (Hss k Hk) Hd) as (Hsd & Hhd).
      split; [exact Hsd | lia].
Qed.

(** The store decides the tree at a location. *)
Lemma shape_inj (bound : nat) :
  forall h t t',
    (height t <= bound)%nat -> shape h t -> shape h t' ->
    tloc t = tloc t' -> t = t'.
Proof.
  induction bound as [|bound IH]; intros h t t' Hh Hs Hs' Hl.
  - pose proof (height_pos t). lia.
  - destruct t as [l m v ks], t' as [l' m' v' ks']. simpl in Hl. subst l'.
    pose proof (height_kids l m v ks bound Hh) as Hks.
    apply shape_unfold in Hs, Hs'.
    destruct Hs as ((p & Hp) & Hss), Hs' as ((p' & Hp') & Hss').
    rewrite Hp in Hp'. injection Hp' as _ <- <- Hlocs.
    f_equal. clear Hp Hh.
    revert ks' Hss' Hlocs.
    induction ks as [|k ks IHks]; intros [|k' ks'] Hss' Hlocs;
      try discriminate; [reflexivity|].
    inversion Hks; subst. inversion Hss; subst. inversion Hss'; subst.
    injection Hlocs as Hk Hlocs.
    f_equal; [now apply (IH h) | now apply IHks].
Qed.

(** No descendant of a tree in the store sits at the location of the
    tree. *)
Lemma descendants_apart h t d :
  shape h t -> d ∈ descendants t -> tloc d <> tloc t.
Proof.
  intros Hs Hd Hl.
  destruct (descendants_shape (height t) h t d (le_n _) Hs Hd) as (Hsd & Hlt).
  pose proof (shape_inj (height d) h d t (le_n _) Hsd Hs Hl) as E.
  subst d. lia.
Qed.

(** ** Visiting *)

Lemma fold_left_descendants {A : Type} (fn : A -> loc -> A) k ks l m v
  (acc : A) :
  fold_left fn (map tloc (descendants (Tree l m v (k :: ks)))) acc =
  fold_left fn (map tloc (descendants (Tree l m v ks)))
    (fold_left fn (map tloc (descendants k)) (fn acc (tloc k))).
Proof.
  rewrite descendants_cons. cbn [map fold_left].
  now rewrite map_app, fold_left_app.
Qed.

(** X1.  [VisitAll] calls the visitor once on every descendant of its
    receiver, each child before what is below it and all of that before the
    next child: the order of [descendants], depth first. *)
Theorem VisitAll_preorder {A : Type} h t (fn : A -> loc -> A) (acc : A)
  (fuel : nat) :
  shape h t -> (height t <= fuel)%nat ->
  VisitAll fuel h (tloc t) fn acc =
  Ok (fold_left fn (map tloc (descendants t)) acc).
Proof.
  revert h t acc.
  induction fuel as [|fuel IH]; intros h t acc Hs Hh.
  - pose proof (height_pos t). lia.
  - destruct t as [l m v ks].
    apply height_kids in Hh. apply shape_unfold in Hs.
    destruct Hs as ((parent & Hl) & Hks).
    cbn [VisitAll tloc]. rewrite (deref_Some _ _ _ Hl). cbn [bind Nodes].
    clear Hl. revert acc.
    induction ks as [|k ks IHks]; intros acc; [reflexivity|].
    inversion Hks as [|? ? Hk Hks']; subst.
    inversion Hh as [|? ? Hhk Hh']; subst.
    rewrite fold_left_descendants.
    cbn [map visit_range].
    destruct (shape_lookup _ _ Hk) as (pk & Hlk).
    rewrite (deref_Some _ _ _ Hlk). cbn [bind Nodes].
    destruct k as [c mk vk kks]. cbn [tkids tloc] in *.
    destruct kks as [|k1 kks].
    + change (0 <? len (map tloc (@nil (tree T)))) with false.
      cbn [bind]. now apply IHks.
    + replace (0 <? len (map tloc (k1 :: kks))) with true
        by (symmetry; apply Z.ltb_lt; unfold len; simpl length; lia).
      rewrite (IH h (Tree c mk vk (k1 :: kks)) _ Hk Hhk). cbn [bind].
      now apply IHks.
Qed.

(** ** Adding nodes *)

Lemma tloc_graft n (new : tree T) t : tloc (graft n new t) = tloc t.
Proof. now destruct t. Qed.

Lemma map_tloc_graft n (new : tree T) ks :
  map tloc (map (graft n new) ks) = map tloc ks.
Proof.
  induction ks as [|k ks IH]; [reflexivity|].
  cbn [map]. now rewrite tloc_graft, IH.
Qed.

Lemma repr_below h parent t : repr h parent t -> (tloc t < length h)%nat.
Proof.
  intros Hr. apply repr_lookup in Hr. eapply lookup_lt_Some. exact Hr.
Qed.

(** The store after [n.Nodes = append(n.Nodes, &Node{...})]. *)
Lemma append_child_store h n (nd : Node T) meta v :
  h !! n = Some nd ->
  append_child h n meta v =
  Ok (<[n := set_Nodes nd (Nodes nd ++ [length h])]>
        (h ++ [{| Root := Some n; Meta := meta; Value_ := v; Nodes := [] |}]),
      length h).
Proof.
  intros Hn. unfold append_child, alloc. now rewrite (deref_Some _ _ _ Hn).
Qed.

Lemma added_store_old h n (nd x : Node T) (cell : Node T) (ns : list loc) l :
  l <> n -> h !! l = Some x ->
  <[n := set_Nodes nd ns]> (h ++ [cell]) !! l = Some x.
Proof.
  intros Hne Hl. rewrite list_lookup_insert_ne by congruence.
  rewrite lookup_app_l by (eapply lookup_lt_Some; exact Hl). exact Hl.
Qed.

Lemma added_store_at h n (nd : Node T) (cell : Node T) (ns : list loc) :
  h !! n = Some nd ->
  <[n := set_Nodes nd ns]> (h ++ [cell]) !! n = Some (set_Nodes nd ns).
Proof.
  intros Hn. apply list_lookup_insert_eq. rewrite length_app.
  apply lookup_lt_Some in Hn. lia.
Qed.

Lemma added_store_new h n (nd : Node T) (cell : Node T) (ns : list loc) :
  h !! n = Some nd ->
  <[n := set_Nodes nd ns]> (h ++ [cell]) !! length h = Some cell.
Proof.
  intros Hn. apply lookup_lt_Some in Hn.
  rewrite list_lookup_insert_ne by lia.
  rewrite lookup_app_r by lia. now rewrite Nat.sub_diag.
Qed.

Lemma repr_graft (bound : nat) :
  forall h parent t n (nd : Node T) meta v,
    (height t <= bound)%nat -> repr h parent t -> h !! n = Some nd ->
    repr (<[n := set_Nodes nd (Nodes nd ++ [length h])]>
            (h ++ [{| Root := Some n; Meta := meta; Value_ := v;
                      Nodes := [] |}]))
      parent (graft n (Tree (length h) meta v []) t).
Proof.
  induction bound as [|bound IH]; intros h parent t n nd meta v Hh Hr Hn.
  - pose proof (height_pos t). lia.
  - destruct t as [l m v0 ks].
    pose proof (height_kids l m v0 ks bound Hh) as Hhk.
    apply repr_unfold in Hr. destruct Hr as (Hl & Hnd & Hks).
    cbn [graft]. apply repr_unfold.
    rewrite map_app, map_tloc_graft.
    assert (Hkids : Forall
              (repr (<[n := set_Nodes nd (Nodes nd ++ [length h])]>
                       (h ++ [{| Root := Some n; Meta := meta; Value_ := v;
                                 Nodes := [] |}])) (Some l))
              (map (graft n (Tree (length h) meta v [])) ks)).
    { apply Forall_forall. intros k' Hk'.
      apply list_elem_of_fmap in Hk'. destruct Hk' as (k & -> & Hk).
      rewrite Forall_forall in Hhk, Hks.
      apply (IH h (Some l) k n nd meta v); auto. }
    destruct (Nat.eqb_spec l n) as [->|Hne].
    + rewrite Hn in Hl. injection Hl as ->.
      split; [|split].
      * rewrite (added_store_at h n _ _ _ Hn). reflexivity.
      * cbn [map tloc]. apply NoDup_app. split; [exact Hnd|]. split.
        -- intros x Hx Hx'. apply list_elem_of_singleton in Hx'. subst x.
           apply list_elem_of_fmap in Hx. destruct Hx as (k & Hk & Hin).
           rewrite Forall_forall in Hks.
           pose proof (repr_below _ _ _ (Hks k Hin)). lia.
        -- apply NoDup_singleton.
      * apply Forall_app. split; [exact Hkids|].
        constructor; [|constructor].
        apply repr_unfold. split; [|split; [constructor | constructor]].
        cbn [map]. apply (added_store_new h n _ _ _ Hn).
    + cbn [map]. rewrite !app_nil_r.
      split; [|split; [exact Hnd | exact Hkids]].
      now apply added_store_old.
Qed.

(** X2.  The four adders keep a tree in the store well-formed: they write
    one fresh cell, at the end of the store, make it the last child of the
    receiver, and change no other node.  The leaf adders return the receiver
    and the branch adders the new node; without meta they are the meta
    adders at the nil meta. *)
Theorem adders_keep_tree h (parent : option loc) t n (nd : Node T) meta v :
  repr h parent t -> h !! n = Some nd ->
  exists h',
    AddMetaBranch h n meta v = Ok (h', length h)
    /\ AddMetaNode h n meta v = Ok (h', n)
    /\ AddBranch h n v = AddMetaBranch h n VNil v
    /\ AddNode h n v = AddMetaNode h n VNil v
    /\ repr h' parent (graft n (Tree (length h) meta v []) t)
    /\ h' !! n = Some (set_Nodes nd (Nodes nd ++ [length h]))
    /\ h' !! length h
       = Some {| Root := Some n; Meta := meta; Value_ := v; Nodes := [] |}
    /\ (forall l (x : Node T), l <> n -> h !! l = Some x -> h' !! l = Some x).
Proof.
  intros Hr Hn.
  exists (<[n := set_Nodes nd (Nodes nd ++ [length h])]>
            (h ++ [{| Root := Some n; Meta := meta; Value_ := v;
                      Nodes := [] |}])).
  split; [|split; [|split; [|split; [|split; [|split; [|split]]]]]].
  - unfold AddMetaBranch. now apply append_child_store.
  - unfold AddMetaNode. now rewrite (append_child_store h n nd meta v Hn).
  - reflexivity.
  - reflexivity.
  - now apply (repr_graft (height t)).
  - now apply added_store_at.
  - now apply (added_store_new h n nd).
  - intros l x Hne Hl. now apply added_store_old.
Qed.

(** X3.  [FindLastNode] answers nil on a node without children; after any
    adder on [n] it answers the node just added, [isLast] holds of that node
    and of no node that named [n] as its parent before. *)
Theorem last_node_after_add h n (nd : Node T) meta v :
  h !! n = Some nd ->
  (Nodes nd = [] -> FindLastNode h n = Ok None)
  /\ exists h' c,
       AddMetaBranch h n meta v = Ok (h', c)
       /\ FindLastNode h' n = Ok (Some c)
       /\ isLast h' c = Ok true
       /\ (forall c0 (x : Node T),
             h !! c0 = Some x -> Root x = Some n -> isLast h' c0 = Ok false).
Proof.
  intros Hn. split.
  { intros Hnil. unfold FindLastNode. rewrite (deref_Some _ _ _ Hn).
    cbn [bind]. now rewrite Hnil. }
  set (cell := {| Root := Some n; Meta := meta; Value_ := v; Nodes := [] |}).
  set (h' := <[n := set_Nodes nd (Nodes nd ++ [length h])]> (h ++ [cell])).
  assert (Hn' : h' !! n = Some (set_Nodes nd (Nodes nd ++ [length h])))
    by (now apply added_store_at).
  assert (Hlast : FindLastNode h' n = Ok (Some (length h))).
  { unfold FindLastNode. rewrite (deref_Some _ _ _ Hn').
    cbn [bind set_Nodes Nodes].
    replace (len (Nodes nd ++ [length h]) =? 0) with false
      by (symmetry; apply Z.eqb_neq; unfold len; rewrite length_app;
          simpl length; lia).
    now rewrite last_snoc. }
  exists h', (length h).
  split; [unfold AddMetaBranch; now apply append_child_store|].
  split; [exact Hlast|]. split.
  - assert (Hc : h' !! length h = Some cell)
      by (now apply (added_store_new h n nd)).
    unfold isLast. rewrite (deref_Some _ _ _ Hc).
    cbn [bind cell Root]. rewrite Hlast. cbn [bind].
    f_equal. now apply bool_decide_eq_true.
  - intros c0 x Hc0 Hroot.
    assert (Hlt : (c0 < length h)%nat) by (eapply lookup_lt_Some; exact Hc0).
    assert (Hc0' : exists x', h' !! c0 = Some x' /\ Root x' = Some n).
    { destruct (Nat.eq_dec c0 n) as [->|Hne].
      - rewrite Hn in Hc0. injection Hc0 as ->.
        eexists. split; [exact Hn' | exact Hroot].
      - exists x. split; [now apply added_store_old | exact Hroot]. }
    destruct Hc0' as (x' & Hx' & Hroot').
    unfold isLast. rewrite (deref_Some _ _ _ Hx'). cbn [bind].
    rewrite Hroot', Hlast. cbn [bind]. f_equal.
    apply bool_decide_eq_false. intros E. injection E as E. lia.
Qed.

Lemma graft_id (bound : nat) :
  forall n (new : tree T) t,
    (height t <= bound)%nat ->
    tloc t <> n -> (forall d, d ∈ descendants t -> tloc d <> n) ->
    graft n new t = t.
Proof.
  induction bound as [|bound IH]; intros n new t Hh Ht Hd.
  - pose proof (height_pos t). lia.
  - destruct t as [l m v ks]. cbn [tloc] in Ht.
    pose proof (height_kids l m v ks bound Hh) as Hhk.
    cbn [graft]. destruct (Nat.eqb_spec l n) as [?|_]; [contradiction|].
    rewrite app_nil_r. f_equal.
    assert (Hks : Forall (fun k => graft n new k = k) ks).
    { apply Forall_forall. intros k Hk. rewrite Forall_forall in Hhk.
      apply IH; [now apply Hhk | |].
      - apply Hd. apply descendants_elem.
        exists k. split; [exact Hk | now left].
      - intros d Hin. apply Hd. apply descendants_elem.
        exists k. split; [exact Hk | now right]. }
    clear Hh Hd Hhk. induction Hks as [|k ks Hk _ IHks]; [reflexivity|].
    cbn [map]. now rewrite Hk, IHks.
Qed.

Lemma descendants_snoc l m v ks k :
  descendants (Tree l m v (ks ++ [k])) =
  descendants (Tree l m v ks) ++ k :: descendants k.
Proof.
  cbn [descendants]. rewrite flat_map_app. cbn [flat_map].
  now rewrite app_nil_r.
Qed.

Lemma height_snoc_leaf l m v ks c m' v' :
  height (Tree l m v (ks ++ [Tree c m' v' []]))
  = Nat.max (height (Tree l m v ks)) 2.
Proof.
  cbn [height]. rewrite map_app. cbn [map height fold_right].
  induction ks as [|k ks IH]; cbn [map app fold_right]; lia.
Qed.

Lemma find_snoc {A : Type} (P : A -> bool) (xs : list A) (x : A) :
  find P (xs ++ [x]) =
  match find P xs with
  | Some d => Some d
  | None => if P x then Some x else None
  end.
Proof.
  induction xs as [|y xs IH]; cbn [app find]; [reflexivity|].
  destruct (P y); [reflexivity | exact IH].
Qed.

(** The receiver of an adder gets one more child and nothing else of its
    tree changes. *)
Lemma graft_at_root h parent t (new : tree T) :
  repr h parent t ->
  graft (tloc t) new t =
  Tree (tloc t) (tmeta t) (tvalue t) (tkids t ++ [new]).
Proof.
  intros Hr.
  assert (Hs : shape h t) by (now apply (repr_shape (height t) h parent)).
  destruct t as [l m v ks]. cbn [graft tloc tmeta tvalue tkids].
  rewrite Nat.eqb_refl. f_equal. f_equal.
  assert (Hks : forall k, k ∈ ks -> graft l new k = k).
  { intros k Hk. apply (graft_id (height k)); [lia | |].
    - apply (descendants_apart h (Tree l m v ks) k Hs).
      apply descendants_elem. exists k. split; [exact Hk | now left].
    - intros d Hd.
      apply (descendants_apart h (Tree l m v ks) d Hs).
      apply descendants_elem. exists k. split; [exact Hk | now right]. }
  clear Hr Hs. induction ks as [|k ks IH]; [reflexivity|].
  cbn [map]. f_equal.
  - apply Hks. apply elem_of_cons. now left.
  - apply IH. intros k' Hk'. apply Hks. apply elem_of_cons. now right.
Qed.

(** X4.  A search by meta from the receiver of an adder, after the add,
    answers what it answered before when that was a node; when it was nil,
    it answers the new node if the new meta deep-equals the target, and nil
    otherwise. *)
Theorem search_after_add h (parent : option loc) t meta v
  (target : MetaValue T) (fuel : nat) :
  repr h parent t -> (height t <= fuel)%nat -> (2 <= fuel)%nat ->
  exists h' c,
    AddMetaBranch h (tloc t) meta v = Ok (h', c)
    /\ FindByMeta deep_T fuel h' (tloc t) target =
       (r <- FindByMeta deep_T fuel h (tloc t) target;
        match r with
        | Some d => Ok (Some d)
        | None => Ok (if DeepEqual deep_T meta target then Some c else None)
        end).
Proof.
  intros Hr Hh Hfuel.
  pose proof (repr_lookup h parent t Hr) as Hn.
  set (cell := {| Root := Some (tloc t); Meta := meta; Value_ := v;
                  Nodes := [] |}).
  set (nd := {| Root := parent; Meta := tmeta t; Value_ := tvalue t;
                Nodes := map tloc (tkids t) |}) in Hn.
  exists (<[tloc t := set_Nodes nd (Nodes nd ++ [length h])]> (h ++ [cell])),
    (length h).
  split; [unfold AddMetaBranch; now apply append_child_store|].
  pose proof (repr_graft (height t) h parent t (tloc t) nd meta v
                (le_n _) Hr Hn) as Hr'.
  fold cell in Hr'.
  rewrite (graft_at_root h parent t _ Hr) in Hr'.
  apply (repr_shape _ _ _ _ (le_n _)) in Hr'.
  assert (Hs : shape h t) by (now apply (repr_shape (height t) h parent)).
  rewrite (FindByMeta_shape deep_T fuel h t target Hs Hh). cbn [bind].
  destruct t as [l m v0 ks]. cbn [tloc tmeta tvalue tkids] in *.
  pose proof (FindByMeta_shape deep_T fuel _ _ target Hr') as E.
  cbn [tloc] in E. rewrite E.
  - rewrite descendants_snoc. cbn [descendants flat_map]. rewrite find_snoc.
    destruct (find (meta_matches deep_T target)
                (flat_map (fun k => k :: descendants k) ks)) as [d|];
      [reflexivity|].
    unfold meta_matches. cbn [tmeta].
    now destruct (DeepEqual deep_T meta target).
  - rewrite height_snoc_leaf. lia.
Qed.

Lemma FindByValue_shape h t (target : Value T) (fuel : nat) :
  shape h t -> (height t <= S fuel)%nat ->
  FindByValue deep_T fuel h (tloc t) target =
  Ok (by_value_answer deep_T target (tkids t)).
Proof.
  intros Hs Hh. destruct t as [l m v ks].
  apply height_kids in Hh. apply shape_unfold in Hs.
  destruct Hs as ((parent & Hl) & Hks).
  unfold FindByValue. cbn [tloc tkids].
  rewrite (deref_Some _ _ _ Hl). cbn [bind Nodes]. clear Hl.
  induction ks as [|k ks IHks]; [reflexivity|].
  apply Forall_cons in Hks, Hh.
  destruct Hks as (Hk & Hks), Hh as (Hhk & Hh).
  cbn [map find_range by_value_answer].
  destruct (shape_lookup _ _ Hk) as (pk & Hlk).
  rewrite (deref_Some _ _ _ Hlk). cbn [bind Value_].
  destruct (DeepEqual deep_T (tvalue k) target); [reflexivity|].
  rewrite (FindByMeta_shape deep_T fuel h k target Hk Hhk). cbn [bind].
  destruct (find (meta_matches deep_T target) (descendants k));
    [reflexivity|].
  cbn [option_map]. now apply IHks.
Qed.

Lemma by_value_answer_snoc (target : Value T) ks c m v :
  by_value_answer deep_T target (ks ++ [Tree c m v []]) =
  match by_value_answer deep_T target ks with
  | Some d => Some d
  | None => if DeepEqual deep_T v target then Some c else None
  end.
Proof.
  induction ks as [|k ks IH]; cbn [app by_value_answer].
  - cbn [tvalue tloc descendants flat_map find].
    now destruct (DeepEqual deep_T v target).
  - destruct (DeepEqual deep_T (tvalue k) target); [reflexivity|].
    destruct (find (meta_matches deep_T target) (descendants k));
      [reflexivity | exact IH].
Qed.

(** X14.  A search by value from the receiver of an adder, after the add,
    answers what it answered before when that was a node; when it was nil,
    it answers the new node if the new value deep-equals the target, and
    nil otherwise. *)
Theorem value_search_after_add h (parent : option loc) t meta v
  (target : Value T) (fuel : nat) :
  repr h parent t -> (height t <= S fuel)%nat -> (1 <= fuel)%nat ->
  exists h' c,
    AddMetaNode h (tloc t) meta v = Ok (h', tloc t)
    /\ h' !! c = Some {| Root := Some (tloc t); Meta := meta; Value_ := v;
                         Nodes := [] |}
    /\ FindByValue deep_T fuel h' (tloc t) target =
       (r <- FindByValue deep_T fuel h (tloc t) target;
        match r with
        | Some d => Ok (Some d)
        | None => Ok (if DeepEqual deep_T v target then Some c else None)
        end).
Proof.
  intros Hr Hh Hfuel.
  pose proof (repr_lookup h parent t Hr) as Hn.
  set (cell := {| Root := Some (tloc t); Meta := meta; Value_ := v;
                  Nodes := [] |}).
  set (nd := {| Root := parent; Meta := tmeta t; Value_ := tvalue t;
                Nodes := map tloc (tkids t) |}) in Hn.
  exists (<[tloc t := set_Nodes nd (Nodes nd ++ [length h])]> (h ++ [cell])),
    (length h).
  split; [unfold AddMetaNode;
          now rewrite (append_child_store h (tloc t) nd meta v Hn)|].
  split; [now apply (added_store_new h (tloc t) nd)|].
  pose proof (repr_graft (height t) h parent t (tloc t) nd meta v
                (le_n _) Hr Hn) as Hr'.
  fold cell in Hr'.
  rewrite (graft_at_root h parent t _ Hr) in Hr'.
  apply (repr_shape _ _ _ _ (le_n _)) in Hr'.
  assert (Hs : shape h t) by (now apply (repr_shape (height t) h parent)).
  rewrite (FindByValue_shape h t target fuel Hs Hh). cbn [bind].
  destruct t as [l m v0 ks]. cbn [tloc tmeta tvalue tkids] in *.
  pose proof (FindByValue_shape _ _ target fuel Hr') as E.
  cbn [tloc tkids] in E. rewrite E.
  - rewrite by_value_answer_snoc.
    destruct (by_value_answer deep_T target ks); [reflexivity|].
    now destruct (DeepEqual deep_T v target).
  - rewrite height_snoc_leaf. lia.
Qed.

(** ** New trees *)

(** X13.  [NewWithRoot] writes one fresh cell, without parent, meta or
    children, and leaves the store as it was: the store holds the one-node
    tree there, ready for the adders, and its render is the root value and a
    line break.  [New] is [NewWithRoot] at ".". *)
Theorem new_tree_is_well_formed h (root : Value T) :
  snd (NewWithRoot h root) = length h
  /\ repr (fst (NewWithRoot h root)) None (Tree (length h) VNil root [])
  /\ (forall l (x : Node T),
        h !! l = Some x -> fst (NewWithRoot h root) !! l = Some x)
  /\ New h = NewWithRoot h (VString ".")
  /\ (forall (g : Globals) (pf : PrintFunc T) (fuel : nat),
        Bytes fmt_T g pf (fst (NewWithRoot h root)) fuel (length h)
        = Ok (printValue fmt_T pf root ++ nl)%string).
Proof.
  unfold NewWithRoot, alloc. cbn [fst snd].
  assert (Hnew : (h ++ [{| Root := None; Meta := VNil; Value_ := root;
                           Nodes := [] |}]) !! length h
                 = Some {| Root := None; Meta := @VNil T; Value_ := root;
                           Nodes := [] |}).
  { rewrite lookup_app_r by lia. now rewrite Nat.sub_diag. }
  split; [reflexivity|]. split; [|split; [|split]].
  - apply repr_unfold. split; [exact Hnew|]. split; constructor.
  - intros l x Hl.
    rewrite lookup_app_l by (eapply lookup_lt_Some; exact Hl). exact Hl.
  - reflexivity.
  - intros g pf fuel. unfold Bytes. rewrite (deref_Some _ _ _ Hnew).
    cbn [bind Root Nodes fst snd].
    change (0 <? len (@nil loc)) with false. cbn [bind].
    unfold printNode. cbn [Meta Value_ is_nil].
    now rewrite ?append_assoc, ?append_nil_r.
Qed.

(** ** Overwriting a value or a meta *)

Lemma map_tloc_relabel n fm fv ks :
  map tloc (map (relabel (T:=T) n fm fv) ks) = map tloc ks.
Proof.
  induction ks as [|k ks IH]; [reflexivity|].
  cbn [map]. rewrite IH. now destruct k.
Qed.

Lemma repr_relabel (bound : nat) :
  forall h parent t n (nd : Node T) fm fv,
    (height t <= bound)%nat -> repr h parent t -> h !! n = Some nd ->
    repr (<[n := {| Root := Root nd; Meta := fm (Meta nd);
                    Value_ := fv (Value_ nd); Nodes := Nodes nd |}]> h)
      parent (relabel n fm fv t).
Proof.
  induction bound as [|bound IH]; intros h parent t n nd fm fv Hh Hr Hn.
  - pose proof (height_pos t). lia.
  - destruct t as [l m v ks].
    pose proof (height_kids l m v ks bound Hh) as Hhk.
    apply repr_unfold in Hr. destruct Hr as (Hl & Hnd & Hks).
    cbn [relabel]. apply repr_unfold. rewrite map_tloc_relabel.
    split; [|split; [exact Hnd|]].
    + destruct (Nat.eqb_spec l n) as [->|Hne].
      * rewrite Hn in Hl. injection Hl as ->.
        rewrite list_lookup_insert_eq
          by (eapply lookup_lt_Some; exact Hn).
        reflexivity.
      * now rewrite list_lookup_insert_ne by congruence.
    + apply Forall_forall. intros k' Hk'.
      apply list_elem_of_fmap in Hk'. destruct Hk' as (k & -> & Hk).
      rewrite Forall_forall in Hhk, Hks.
      apply (IH h (Some l) k n nd fm fv); auto.
Qed.

(** X5.  [SetValue] and [SetMetaValue] overwrite the one field of the one
    node: the store holds the same tree with that value, or that meta,
    replaced, and every other node is as before. *)
Theorem setters_keep_tree h (parent : option loc) t n (nd : Node T)
  (value : Value T) (meta : MetaValue T) :
  repr h parent t -> h !! n = Some nd ->
  (exists h',
      SetValue h n value = Ok h'
      /\ repr h' parent (with_value n value t)
      /\ h' !! n = Some {| Root := Root nd; Meta := Meta nd;
                           Value_ := value; Nodes := Nodes nd |}
      /\ (forall l, l <> n -> h' !! l = h !! l))
  /\ (exists h',
         SetMetaValue h n meta = Ok h'
         /\ repr h' parent (with_meta n meta t)
         /\ h' !! n = Some {| Root := Root nd; Meta := meta;
                              Value_ := Value_ nd; Nodes := Nodes nd |}
         /\ (forall l, l <> n -> h' !! l = h !! l)).
Proof.
  intros Hr Hn.
  assert (Hlt : (n < length h)%nat) by (eapply lookup_lt_Some; exact Hn).
  split.
  - exists (<[n := set_Value nd value]> h).
    split; [unfold SetValue; now rewrite (deref_Some _ _ _ Hn)|].
    split; [|split].
    + apply (repr_relabel (height t) h parent t n nd
               (fun m => m) (fun _ => value) (le_n _) Hr Hn).
    + now apply list_lookup_insert_eq.
    + intros l Hl. now apply list_lookup_insert_ne.
  - exists (<[n := set_Meta nd meta]> h).
    split; [unfold SetMetaValue; now rewrite (deref_Some _ _ _ Hn)|].
    split; [|split].
    + apply (repr_relabel (height t) h parent t n nd
               (fun _ => meta) (fun v => v) (le_n _) Hr Hn).
    + now apply list_lookup_insert_eq.
    + intros l Hl. now apply list_lookup_insert_ne.
Qed.

(** ** Detaching a subtree *)

Lemma repr_stable (bound : nat) :
  forall h h' parent t,
    (height t <= bound)%nat -> repr h parent t ->
    h' !! tloc t = h !! tloc t ->
    (forall d, d ∈ descendants t -> h' !! tloc d = h !! tloc d) ->
    repr h' parent t.
Proof.
  induction bound as [|bound IH]; intros h h' parent t Hh Hr Ht Hd.
  - pose proof (height_pos t). lia.
  - destruct t as [l m v ks]. cbn [tloc] in Ht.
    pose proof (height_kids l m v ks bound Hh) as Hhk.
    apply repr_unfold in Hr. destruct Hr as (Hl & Hnd & Hks).
    apply repr_unfold. split; [now rewrite Ht|]. split; [exact Hnd|].
    apply Forall_forall. intros k Hk.
    rewrite Forall_forall in Hhk, Hks.
    apply (IH h h' (Some l) k); auto.
    + apply Hd. apply descendants_elem. exists k. split; [exact Hk|now left].
    + intros d Hin. apply Hd. apply descendants_elem.
      exists k. split; [exact Hk | now right].
Qed.

(** X6.  After [Branch], a node renders as the root of its own tree: the
    render returns the diagram of the subtree, values of several lines
    included, wherever the node hung before. *)
Theorem Branch_then_Bytes (g : Globals) (pf : PrintFunc T) h
  (parent : option loc) t (fuel : nat) :
  0 <= IndentSize g < 2 ^ 63 - 1 ->
  repr h parent t -> (height t <= S fuel)%nat ->
  Z.of_nat (height t) < 2 ^ 63 ->
  exists h',
    Branch h (tloc t) = Ok (h', tloc t)
    /\ Bytes fmt_T g pf h' fuel (tloc t) = Ok (diagram fmt_T g pf t).
Proof.
  intros Hind Hr Hh Hb.
  pose proof (repr_lookup h parent t Hr) as Hn.
  assert (Hs : shape h t) by (now apply (repr_shape (height t) h parent)).
  exists (<[tloc t := set_Root
                        {| Root := parent; Meta := tmeta t;
                           Value_ := tvalue t;
                           Nodes := map tloc (tkids t) |} None]> h).
  split; [unfold Branch; now rewrite (deref_Some _ _ _ Hn)|].
  apply Bytes_root_repr; try assumption.
  destruct t as [l m v ks]. cbn [tloc tmeta tvalue tkids] in *.
  apply repr_unfold in Hr. destruct Hr as (Hl & Hnd & Hks).
  apply repr_unfold. split; [|split; [exact Hnd|]].
  - rewrite list_lookup_insert_eq by (eapply lookup_lt_Some; exact Hl).
    reflexivity.
  - apply Forall_forall. intros k Hk. rewrite Forall_forall in Hks.
    apply (repr_stable (height k) h _ (Some l) k (le_n _) (Hks k Hk)).
    + apply list_lookup_insert_ne. intros E.
      apply (descendants_apart h (Tree l m v ks) k Hs); [|now symmetry].
      apply descendants_elem. exists k. split; [exact Hk | now left].
    + intros d Hd. apply list_lookup_insert_ne. intros E.
      apply (descendants_apart h (Tree l m v ks) d Hs); [|now symmetry].
      apply descendants_elem. exists k. split; [exact Hk | now right].
Qed.

Lemma shape_fields (bound : nat) :
  forall h h' t,
    (height t <= bound)%nat -> shape h t ->
    (forall l (x : Node T), h !! l = Some x ->
       exists x', h' !! l = Some x' /\ Meta x' = Meta x
                  /\ Value_ x' = Value_ x /\ Nodes x' = Nodes x) ->
    shape h' t.
Proof.
  induction bound as [|bound IH]; intros h h' t Hh Hs Hsame.
  - pose proof (height_pos t). lia.
  - destruct t as [l m v ks].
    pose proof (height_kids l m v ks bound Hh) as Hhk.
    apply shape_unfold in Hs. destruct Hs as ((p & Hl) & Hks).
    apply shape_unfold. split.
    + destruct (Hsame l _ Hl) as (x' & Hx' & Hm & Hv & Hn).
      exists (Root x'). rewrite Hx'. f_equal.
      destruct x' as [r' m' v' ns']. cbn in *. now subst.
    + apply Forall_forall. intros k Hk. rewrite Forall_forall in Hhk, Hks.
      apply (IH h h' k); auto.
Qed.

(** X15.  [Branch] changes no search: from any node, the two searches
    answer after a [Branch] on any node what they answered before. *)
Theorem Branch_keeps_searches h t (n : loc) (nd : Node T)
  (target : Value T) (fuel : nat) :
  shape h t -> h !! n = Some nd -> (height t <= fuel)%nat ->
  exists h',
    Branch h n = Ok (h', n)
    /\ FindByMeta deep_T fuel h' (tloc t) target
       = FindByMeta deep_T fuel h (tloc t) target
    /\ FindByValue deep_T fuel h' (tloc t) target
       = FindByValue deep_T fuel h (tloc t) target.
Proof.
  intros Hs Hn Hh.
  exists (<[n := set_Root nd None]> h).
  split; [unfold Branch; now rewrite (deref_Some _ _ _ Hn)|].
  assert (Hs' : shape (<[n := set_Root nd None]> h) t).
  { apply (shape_fields (height t) h _ t (le_n _) Hs).
    intros l x Hl. destruct (Nat.eq_dec l n) as [->|Hne].
    - rewrite Hn in Hl. injection Hl as <-.
      exists (set_Root nd None). split; [|now repeat split].
      apply list_lookup_insert_eq. eapply lookup_lt_Some. exact Hn.
    - exists x. split; [|now repeat split].
      now rewrite list_lookup_insert_ne by congruence. }
  split.
  - now rewrite (FindByMeta_shape deep_T fuel _ t target Hs' Hh),
      (FindByMeta_shape deep_T fuel h t target Hs Hh).
  - assert (Hh' : (height t <= S fuel)%nat) by lia.
    now rewrite (FindByValue_shape _ t target fuel Hs' Hh'),
      (FindByValue_shape h t target fuel Hs Hh').
Qed.

(** ** The walk of [padding] *)

Section Walk.

Variable g : Globals.
Variable h : list (Node T).
Hypothesis indent_ok : 0 <= IndentSize g < 2 ^ 63 - 1.

Lemma fold_append_replicate (k : nat) (xs : list string) :
  fold_right String.append EmptyString (replicate k EmptyString ++ xs)
  = fold_right String.append EmptyString xs.
Proof. induction k as [|k IH]; [reflexivity | exact IH]. Qed.

(** A walk no longer than the slots: the outer slots stay empty. *)
Lemma padding_loop_short n (lasts : list bool) :
  up_chain h n lasts ->
  forall (fuel spare : nat) (suffix : list string),
    (length lasts < fuel)%nat -> Z.of_nat spare + len lasts < 2 ^ 63 ->
    padding_loop g h fuel
      (replicate spare EmptyString
       ++ replicate (length lasts) EmptyString ++ suffix)
      (Z.of_nat spare + len lasts - 1) n
    = Ok (replicate spare EmptyString ++ map (segment g) lasts ++ suffix).
Proof.
  unfold len.
  induction 1 as [n nd Hn Hroot | n nd r rd lasts Hn Hroot Hrd Hup IH];
    intros fuel spare suffix Hfuel Hbound.
  - destruct fuel as [|fuel]; [simpl in Hfuel; lia|].
    cbn [padding_loop]. rewrite (deref_Some _ _ _ Hn). cbn [bind].
    rewrite Hroot. reflexivity.
  - rewrite length_app in Hfuel, Hbound |- *. cbn [length] in *.
    destruct fuel as [|fuel]; [lia|].
    cbn [padding_loop]. rewrite (deref_Some _ _ _ Hn). cbn [bind].
    rewrite Hroot. rewrite (isLast_chain _ _ _ _ _ Hn Hroot Hrd).
    cbn [bind]. rewrite (link_segment g indent_ok). cbn [bind].
    set (s := segment g (bool_decide (last (Nodes rd) = Some n))).
    replace (Z.of_nat spare + Z.of_nat (length lasts + 1) - 1)
      with (Z.of_nat (spare + length lasts)) by lia.
    unfold store_link, len.
    rewrite !length_app, !length_replicate.
    destruct (Z.ltb_spec (Z.of_nat (spare + length lasts)) 0) as [?|_];
      [lia|].
    destruct (Z.leb_spec
                (Z.of_nat (spare + (length lasts + 1 + length suffix)))
                (Z.of_nat (spare + length lasts))) as [?|_]; [lia|].
    cbn [orb bind]. rewrite Nat2Z.id.
    replace (length lasts + 1)%nat with (S (length lasts)) by lia.
    rewrite replicate_S_end, <- (app_assoc _ [EmptyString] suffix).
    rewrite insert_app_r_alt by (rewrite length_replicate; lia).
    rewrite length_replicate.
    rewrite insert_app_r_alt by (rewrite length_replicate; lia).
    rewrite length_replicate.
    replace (spare + length lasts - spare - length lasts)%nat with O by lia.
    cbn [app].
    change (<[0%nat:=s]> (EmptyString :: suffix)) with (s :: suffix).
    rewrite int_add_small by lia.
    replace (Z.of_nat (spare + length lasts) + -1)
      with (Z.of_nat spare + Z.of_nat (length lasts) - 1) by lia.
    rewrite IH by lia.
    rewrite map_app, <- app_assoc. reflexivity.
Qed.

(** A walk longer than the slots: the store below slot 0 faults. *)
Lemma padding_loop_long n (lasts : list bool) :
  up_chain h n lasts ->
  forall (fuel : nat) (links : list string) (level : Z),
    -1 <= level -> level + 1 < len lasts -> level < len links ->
    len links < 2 ^ 63 -> level + 2 <= Z.of_nat fuel ->
    padding_loop g h fuel links level n = Panic IndexOutOfRange.
Proof.
  unfold len.
  induction 1 as [n nd Hn Hroot | n nd r rd lasts Hn Hroot Hrd Hup IH];
    intros fuel links level Hlo Hlong Hlinks Hbound Hfuel.
  - simpl in Hlong. lia.
  - rewrite length_app in Hlong. cbn [length] in Hlong.
    destruct fuel as [|fuel]; [lia|].
    cbn [padding_loop]. rewrite (deref_Some _ _ _ Hn). cbn [bind].
    rewrite Hroot. rewrite (isLast_chain _ _ _ _ _ Hn Hroot Hrd).
    cbn [bind]. rewrite (link_segment g indent_ok). cbn [bind].
    unfold store_link, len.
    destruct (Z.ltb_spec level 0) as [?|Hpos]; [reflexivity|].
    destruct (Z.leb_spec (Z.of_nat (length links)) level) as [?|_]; [lia|].
    cbn [orb bind]. rewrite int_add_small by lia.
    apply IH; rewrite ?length_insert; lia.
Qed.

(** X7.  [padding(level, node)] walks from [node] to the first parentless
    node above it.  When the walk passes at most [level + 1] nodes, the
    result is one segment for each of them, outermost first, and the slots
    left over add nothing; when it passes more, the call panics with an
    index out of range. *)
Theorem padding_walk n (lasts : list bool) (level : Z) :
  up_chain h n lasts -> -1 <= level -> level + 1 < 2 ^ 63 ->
  padding g h level n =
  if len lasts <=? level + 1 then Ok (chain_padding g lasts)
  else Panic IndexOutOfRange.
Proof.
  intros Hup Hlo Hhi. unfold padding.
  rewrite int_add_small by lia.
  destruct (Z.ltb_spec (level + 1) 0) as [?|_]; [lia|].
  destruct (Z.leb_spec (len lasts) (level + 1)) as [Hshort|Hlong].
  - unfold len in Hshort.
    replace (Z.to_nat (level + 1))
      with ((Z.to_nat (level + 1) - length lasts) + length lasts)%nat
      by lia.
    rewrite replicate_add.
    replace level
      with (Z.of_nat (Z.to_nat (level + 1) - length lasts) + len lasts - 1)
      at 3 by (unfold len; lia).
    rewrite <- (app_nil_r (replicate (length lasts) EmptyString)).
    rewrite (padding_loop_short n lasts Hup) by (unfold len; lia).
    cbn [bind]. rewrite app_nil_r, Join_empty_sep, fold_append_replicate.
    reflexivity.
  - rewrite (padding_loop_long n lasts Hup);
      [reflexivity | lia | lia | | | lia];
      unfold len; rewrite length_replicate; lia.
Qed.

End Walk.

(** ** Rendering trees of one-line values *)

Section OneLine.

Variable g : Globals.
Variable pf : PrintFunc T.
Variable h : list (Node T).
Hypothesis indent_ok : 0 <= IndentSize g < 2 ^ 63 - 1.

Lemma value_text_one_line (lasts : list bool) v :
  one_line fmt_T pf v -> value_text fmt_T g pf lasts v = fmt_v fmt_T v.
Proof.
  unfold one_line, value_text, len.
  destruct (split_lines (printValue fmt_T pf v)) as [|l0 [|l1 rest]];
    [reflexivity | reflexivity |].
  simpl length. lia.
Qed.

Lemma printValues_one_line n (nd : Node T) (anc : list bool) (le : list Z)
  (edge : string) (level : Z) :
  h !! n = Some nd -> one_line fmt_T pf (Value_ nd) ->
  len anc = level -> level < 2 ^ 63 ->
  (forall j, 0 <= j < level -> isEnded le j = flag_at anc j) ->
  printValues fmt_T g pf h level le edge n =
  Ok (chain_padding g anc ++ edge ++ " "
      ++ (if is_nil (Meta nd) then "" else printMeta fmt_T pf (Meta nd))
      ++ fmt_v fmt_T (Value_ nd) ++ nl)%string.
Proof.
  intros Hn Hone Hanc Hb Hle. unfold printValues.
  replace (Z.to_nat level) with (length anc) by (unfold len in Hanc; lia).
  rewrite (print_indent_chain g indent_ok).
  - cbn [bind]. unfold renderValue.
    rewrite (deref_Some _ _ _ Hn). cbn [bind].
    unfold one_line in Hone. apply Z.ltb_lt in Hone. rewrite Hone.
    reflexivity.
  - lia.
  - lia.
  - intros j Hj. rewrite Hle by (unfold len in Hanc; lia). unfold flag_at.
    destruct (Z.ltb_spec (0 + Z.of_nat j) 0) as [?|_]; [lia|].
    now rewrite Z.add_0_l, Nat2Z.id.
Qed.

Lemma printNodes_one_line (fuel : nat) :
  forall (level : Z) (le : list Z) (anc : list bool) ks,
    Forall (shape h) ks ->
    Forall (fun k => Forall (fun d => one_line fmt_T pf (tvalue d))
                       (k :: descendants k)) ks ->
    len anc = level ->
    (forall j, isEnded le j = flag_at anc j) ->
    (0 < fuel)%nat -> Forall (fun k => (height k <= fuel)%nat) ks ->
    Forall (fun k => level + Z.of_nat (height k) < 2 ^ 63) ks ->
    printNodes fmt_T g pf h fuel level le (map tloc ks)
    = Ok (diagram_forest fmt_T g pf anc ks).
Proof.
  induction fuel as [|fuel IH];
    intros level le anc ks Hks Hone Hlen Hle Hpos Hh Hb; [lia|].
  cbn [printNodes].
  enough (Hloop : forall rest done le0,
             ks = done ++ rest ->
             (forall j, isEnded le0 j = flag_at anc j) ->
             printNodes_range fmt_T g pf h level (len (map tloc ks))
               (printNodes fmt_T g pf h fuel (int_add level 1))
               (len done) le0 (map tloc rest)
             = Ok (diagram_forest fmt_T g pf anc rest)).
  { apply (Hloop ks [] le); [reflexivity | exact Hle]. }
  induction rest as [|k rest IHrest]; intros done le0 Hsplit Hle0;
    [reflexivity|].
  cbn [map printNodes_range].
  assert (Hlevel : 0 <= level) by (unfold len in Hlen; lia).
  set (b := is_last_of rest).
  assert (Hlast : (len done =? len (map tloc ks) - 1) = b)
    by (rewrite Hsplit; apply last_index).
  rewrite !Hlast.
  assert (Hin : k ∈ ks)
    by (rewrite Hsplit; apply elem_of_app; right; apply elem_of_cons;
        now left).
  rewrite Forall_forall in Hks, Hone, Hh, Hb.
  assert (Hk := Hks k Hin). assert (Honek := Hone k Hin).
  assert (Hhk := Hh k Hin). assert (Hbk := Hb k Hin).
  pose proof (height_pos k) as Hk1.
  destruct k as [c m v kks].
  apply shape_unfold in Hk. destruct Hk as ((pc & Hc) & Hkks).
  apply Forall_cons in Honek. destruct Honek as (Hv & Hdesc).
  cbn [tvalue] in Hv.
  assert (Hle' : forall j,
             isEnded (if b then le0 ++ [level] else le0) j
             = flag_at (anc ++ [b]) j).
  { rewrite <- Hlen. now apply ended_step. }
  rewrite (printValues_one_line c _ anc
             (if b then le0 ++ [level] else le0) _ level Hc Hv Hlen).
  2:{ lia. }
  2:{ intros j Hj. destruct b; [|apply Hle0].
      rewrite isEnded_app, Hle0.
      replace (level =? j) with false by (symmetry; apply Z.eqb_neq; lia).
      apply orb_false_r. }
  cbn [bind Meta Value_ tloc]. rewrite (deref_Some _ _ _ Hc).
  cbn [bind Nodes].
  assert (Hbelow :
            (if 0 <? len (map tloc kks)
             then printNodes fmt_T g pf h fuel (int_add level 1)
                    (if b then le0 ++ [level] else le0) (map tloc kks)
             else Ok EmptyString)
            = Ok (diagram_forest fmt_T g pf (anc ++ [b]) kks)).
  { destruct kks as [|k1 kks]; [reflexivity|].
    replace (0 <? len (map tloc (k1 :: kks))) with true
      by (symmetry; apply Z.ltb_lt; unfold len; simpl length; lia).
    rewrite int_add_small by lia.
    pose proof (height_pos k1) as Hk1pos.
    pose proof (height_kid c m v (k1 :: kks) k1 (or_introl eq_refl)) as Hlt1.
    apply (IH (level + 1) _ (anc ++ [b])); [exact Hkks | | | exact Hle' | | |].
    - apply Forall_forall. intros k' Hk'.
      rewrite Forall_forall in Hdesc. constructor.
      + apply Hdesc. apply descendants_elem.
        exists k'. split; [exact Hk' | now left].
      + apply Forall_forall. intros d Hd. apply Hdesc.
        apply descendants_elem. exists k'. split; [exact Hk' | now right].
    - unfold len in *. rewrite length_app. cbn [length]. lia.
    - lia.
    - apply (height_kids c m v). exact Hhk.
    - apply Forall_forall. intros k' Hk'.
      apply list_elem_of_In in Hk'.
      pose proof (height_kid c m v (k1 :: kks) k' Hk'). lia. }
  rewrite Hbelow. cbn [bind].
  assert (Hothers :
            printNodes_range fmt_T g pf h level (len (map tloc ks))
              (printNodes fmt_T g pf h fuel (int_add level 1))
              (len done + 1) (if b then le0 ++ [level] else le0)
              (map tloc rest)
            = Ok (diagram_forest fmt_T g pf anc rest)).
  { destruct rest as [|k2 rest]; [reflexivity|].
    replace (len done + 1) with (len (done ++ [Tree c m v kks]))
      by (unfold len; rewrite length_app; simpl length; lia).
    apply IHrest; [now rewrite <- app_assoc | exact Hle0]. }
  rewrite Hothers. cbn [bind diagram_forest].
  rewrite diagram_node_eq. fold b.
  rewrite (value_text_one_line _ _ Hv).
  rewrite !append_assoc. reflexivity.
Qed.

Lemma one_line_kids l m v ks :
  Forall (fun d => one_line fmt_T pf (tvalue d))
    (descendants (Tree l m v ks)) ->
  Forall (fun k => Forall (fun d => one_line fmt_T pf (tvalue d))
                     (k :: descendants k)) ks.
Proof.
  intros Hd. rewrite Forall_forall in Hd.
  apply Forall_forall. intros k Hk. constructor.
  - apply Hd. apply descendants_elem. exists k. split; [exact Hk|now left].
  - apply Forall_forall. intros d Hin. apply Hd.
    apply descendants_elem. exists k. split; [exact Hk | now right].
Qed.

Lemma bounds_kids l m v ks (level : Z) :
  level + Z.of_nat (height (Tree l m v ks)) < 2 ^ 63 ->
  Forall (fun k => level + Z.of_nat (height k) < 2 ^ 63) ks.
Proof.
  intros Hb. apply Forall_forall. intros k Hk.
  apply list_elem_of_In in Hk.
  pose proof (height_kid l m v ks k Hk). lia.
Qed.

(** X8.  Where every value below the root renders to one line, rendering a
    parentless node reads only the downward pointers: it writes the diagram
    of the tree whatever the back pointers of the nodes below say (after
    [Branch] on one of them, say). *)
Theorem Bytes_one_line_tree t (nd : Node T) (fuel : nat) :
  shape h t -> h !! tloc t = Some nd -> Root nd = None ->
  Forall (fun d => one_line fmt_T pf (tvalue d)) (descendants t) ->
  (height t <= S fuel)%nat -> Z.of_nat (height t) < 2 ^ 63 ->
  Bytes fmt_T g pf h fuel (tloc t) = Ok (diagram fmt_T g pf t).
Proof.
  intros Hs Hn Hroot Hone Hh Hb. destruct t as [r m v ks].
  pose proof (proj1 (shape_unfold _ _ _ _ _) Hs) as ((p & Hl) & Hks).
  cbn [tloc] in Hn. rewrite Hl in Hn. injection Hn as <-.
  cbn [Root] in Hroot. subst p.
  unfold Bytes, diagram. cbn [tloc tmeta tvalue tkids].
  rewrite (deref_Some _ _ _ Hl). cbn [bind Root Nodes fst snd].
  unfold printNode. cbn [Meta Value_].
  destruct ks as [|k ks].
  - cbn [map diagram_forest]. change (0 <? len (@nil loc)) with false.
    cbn [bind]. now rewrite !append_assoc.
  - replace (0 <? len (map tloc (k :: ks))) with true
      by (symmetry; apply Z.ltb_lt; unfold len; simpl length; lia).
    pose proof (height_pos k) as Hk1.
    pose proof (height_kid r m v (k :: ks) k (or_introl eq_refl)) as Hlt.
    rewrite (printNodes_one_line fuel 0 [] [] (k :: ks) Hks).
    + cbn [bind]. now rewrite !append_assoc.
    + now apply (one_line_kids r m v).
    + reflexivity.
    + intros j. now rewrite flag_at_nil.
    + lia.
    + apply (height_kids r m v). exact Hh.
    + apply (bounds_kids r m v). lia.
Qed.

(** X9.  Called on a node that has a parent, with one-line values in its
    subtree, [Bytes] writes the node's line with the connector chosen by its
    having children, and then its children at the same column as that line,
    as if they came after it among the children of one node. *)
Theorem Bytes_subtree_one_line t (nd : Node T) (p : loc) (fuel : nat) :
  shape h t -> h !! tloc t = Some nd -> Root nd = Some p ->
  Forall (fun d => one_line fmt_T pf (tvalue d)) (t :: descendants t) ->
  (height t <= S fuel)%nat -> Z.of_nat (height t) < 2 ^ 63 ->
  Bytes fmt_T g pf h fuel (tloc t) =
  Ok (connector g (is_last_of (tkids t)) ++ " "
      ++ (if is_nil (tmeta t) then "" else printMeta fmt_T pf (tmeta t))
      ++ fmt_v fmt_T (tvalue t) ++ nl
      ++ diagram_forest fmt_T g pf [] (tkids t))%string.
Proof.
  intros Hs Hn Hroot Hone Hh Hb. destruct t as [r m v ks].
  pose proof (proj1 (shape_unfold _ _ _ _ _) Hs) as ((p' & Hl) & Hks).
  cbn [tloc] in Hn. rewrite Hl in Hn. injection Hn as <-.
  cbn [Root] in Hroot. subst p'.
  apply Forall_cons in Hone. destruct Hone as (Hv & Hdesc).
  cbn [tvalue] in Hv.
  unfold Bytes. cbn [tloc tmeta tvalue tkids].
  rewrite (deref_Some _ _ _ Hl). cbn [bind Root Nodes].
  destruct ks as [|k ks].
  - cbn [map is_last_of diagram_forest].
    change (len (@nil loc) =? 0) with true.
    change (0 <? len (@nil loc)) with false. cbv beta iota zeta.
    rewrite (printValues_one_line r _ [] [0] _ 0 Hl Hv eq_refl)
      by (try lia; intros j Hj; lia).
    cbn [bind fst snd Meta Value_ connector chain_padding map fold_right].
    rewrite ?append_assoc, ?append_nil_r. reflexivity.
  - replace (len (map tloc (k :: ks)) =? 0) with false
      by (symmetry; apply Z.eqb_neq; unfold len; simpl length; lia).
    replace (0 <? len (map tloc (k :: ks))) with true
      by (symmetry; apply Z.ltb_lt; unfold len; simpl length; lia).
    cbv beta iota zeta.
    rewrite (printValues_one_line r _ [] [] _ 0 Hl Hv eq_refl)
      by (try lia; intros j Hj; lia).
    cbn [bind fst snd Meta Value_].
    pose proof (height_pos k) as Hk1.
    pose proof (height_kid r m v (k :: ks) k (or_introl eq_refl)) as Hlt.
    rewrite (printNodes_one_line fuel 0 [] [] (k :: ks) Hks).
    + cbn [bind is_last_of connector chain_padding map fold_right].
      rewrite ?append_assoc, ?append_nil_r. reflexivity.
    + now apply (one_line_kids r m v).
    + reflexivity.
    + intros j. now rewrite flag_at_nil.
    + lia.
    + apply (height_kids r m v). exact Hh.
    + apply (bounds_kids r m v). lia.
Qed.

End OneLine.

(** ** A negative indentation width *)

Lemma print_indent_negative (g : Globals) (le : list Z) (i : Z)
  (count : nat) :
  - 2 ^ 63 <= IndentSize g < -1 -> (0 < count)%nat ->
  print_indent g le i count = Panic NegativeRepeatCount.
Proof.
  intros Hneg Hc. destruct count as [|count]; [lia|].
  cbn [print_indent]. unfold strings_Repeat.
  rewrite int_add_small by lia.
  destruct (isEnded le i).
  - destruct (Z.ltb_spec (IndentSize g + 1) 0); [reflexivity | lia].
  - destruct (Z.ltb_spec (IndentSize g) 0); [reflexivity | lia].
Qed.

(** X10.  With [IndentSize] below -1 every line below the first level
    asks [strings.Repeat] for a negative count: rendering a parentless node
    one of whose children has a child panics, the one-line children before
    it notwithstanding. *)
Theorem Bytes_negative_indent (g : Globals) (pf : PrintFunc T) h t
  (nd : Node T) (fuel : nat) :
  - 2 ^ 63 <= IndentSize g < -1 ->
  shape h t -> h !! tloc t = Some nd -> Root nd = None ->
  Forall (fun k => one_line fmt_T pf (tvalue k)) (tkids t) ->
  Exists (fun k => tkids k <> []) (tkids t) ->
  (2 <= fuel)%nat ->
  Bytes fmt_T g pf h fuel (tloc t) = Panic NegativeRepeatCount.
Proof.
  intros Hneg Hs Hn Hroot Hone Hex Hfuel. destruct t as [r m v ks].
  pose proof (proj1 (shape_unfold _ _ _ _ _) Hs) as ((p & Hl) & Hks).
  cbn [tloc tkids] in *. rewrite Hl in Hn. injection Hn as <-.
  cbn [Root] in Hroot. subst p.
  unfold Bytes. rewrite (deref_Some _ _ _ Hl). cbn [bind Root Nodes fst snd].
  assert (Hne : ks <> []) by (intros ->; inversion Hex).
  replace (0 <? len (map tloc ks)) with true
    by (symmetry; apply Z.ltb_lt; unfold len; rewrite length_map;
        destruct ks; [contradiction | simpl length; lia]).
  destruct fuel as [|[|fuel]]; [lia | lia |].
  cbn [printNodes].
  enough (Hloop : forall (total i : Z) (le : list Z),
             printNodes_range fmt_T g pf h 0 total
               (printNodes fmt_T g pf h (S fuel) (int_add 0 1)) i le
               (map tloc ks)
             = Panic NegativeRepeatCount).
  { now rewrite Hloop. }
  clear Hl Hs Hne.
  induction ks as [|k ks IH]; intros total i le; [inversion Hex|].
  apply Forall_cons in Hks, Hone.
  destruct Hks as (Hk & Hks), Hone as (Hv & Hone).
  destruct k as [c mk vk kks]. cbn [tvalue tkids] in *.
  apply shape_unfold in Hk. destruct Hk as ((pc & Hc) & _).
  cbn [map printNodes_range tloc].
  unfold printValues at 1. change (Z.to_nat 0) with O.
  cbn [print_indent bind]. unfold renderValue.
  rewrite (deref_Some _ _ _ Hc). cbn [bind Value_ Meta Nodes].
  unfold one_line in Hv. apply Z.ltb_lt in Hv. rewrite Hv. cbn [bind].
  destruct kks as [|k1 kks].
  - change (0 <? len (map tloc (@nil (tree T)))) with false. cbn [bind].
    rewrite IH; [reflexivity | assumption | | assumption].
    apply Exists_cons in Hex. destruct Hex as [Hhd | Htl];
      [now contradiction Hhd | exact Htl].
  - replace (0 <? len (map tloc (k1 :: kks))) with true
      by (symmetry; apply Z.ltb_lt; unfold len; simpl length; lia).
    cbn [printNodes map printNodes_range].
    rewrite (int_add_small 0 1) by lia.
    unfold printValues at 1. change (Z.to_nat (0 + 1)) with 1%nat.
    rewrite (print_indent_negative g _ 0 1 Hneg) by lia.
    reflexivity.
Qed.

(** ** Counting lines *)

Lemma count_nl_app (a b : string) :
  count_nl (a ++ b) = (count_nl a + count_nl b)%nat.
Proof.
  induction a as [|c a IH]; [reflexivity|].
  cbn [String.append count_nl]. rewrite IH. lia.
Qed.

Lemma count_nl_repeat (n : nat) : count_nl (repeat_string " " n) = O.
Proof. induction n as [|n IH]; [reflexivity | exact IH]. Qed.

Lemma split_lines_count (s : string) :
  Forall (fun line => count_nl line = O) (split_lines s)
  /\ length (split_lines s) = S (count_nl s).
Proof.
  induction s as [|c s (IHf & IHl)]; [split; [now repeat constructor|reflexivity]|].
  cbn [split_lines count_nl]. destruct (Ascii.eqb c newline) eqn:Ec.
  - split; [now constructor | cbn [length]; now rewrite IHl].
  - destruct (split_lines s) as [|l0 ls]; [discriminate IHl|].
    apply Forall_cons in IHf. destruct IHf as (H0 & Hls).
    split.
    + constructor; [|exact Hls]. cbn [count_nl]. now rewrite Ec, H0.
    + cbn [length] in *. lia.
Qed.

Lemma list_sum_cons (a : nat) (xs : list nat) :
  list_sum (a :: xs) = (a + list_sum xs)%nat.
Proof. reflexivity. Qed.

Lemma count_nl_concat (ls : list string) :
  count_nl (String.concat nl ls)
  = (list_sum (map count_nl ls) + pred (length ls))%nat.
Proof.
  induction ls as [|x xs IH]; [reflexivity|].
  destruct xs as [|y ys].
  - cbn. lia.
  - change (String.concat nl (x :: y :: ys))
      with (x ++ nl ++ String.concat nl (y :: ys))%string.
    rewrite !count_nl_app, IH.
    cbn [map list_sum fold_right length pred count_nl nl].
    rewrite Ascii.eqb_refl. lia.
Qed.

Section Lines.

Variable g : Globals.
Variable pf : PrintFunc T.
Hypothesis link_one_line : count_nl (EdgeTypeLink g) = O.
Hypothesis mid_one_line : count_nl (EdgeTypeMid g) = O.
Hypothesis end_one_line : count_nl (EdgeTypeEnd g) = O.
Hypothesis default_value : ValueFunc pf = None.

Lemma count_nl_padding (lasts : list bool) :
  count_nl (chain_padding g lasts) = O.
Proof.
  unfold chain_padding.
  induction lasts as [|b lasts IH]; [reflexivity|].
  cbn [map fold_right]. rewrite count_nl_app, IH.
  destruct b; cbn [segment];
    rewrite ?count_nl_app, ?count_nl_repeat, ?link_one_line; reflexivity.
Qed.

Lemma count_nl_value_text (lasts : list bool) v :
  count_nl (value_text fmt_T g pf lasts v) = count_nl (fmt_v fmt_T v).
Proof.
  unfold value_text, printValue, DefaultPrintValue. rewrite default_value.
  destruct (split_lines_count (fmt_v fmt_T v)) as (Hf & Hl).
  destruct (split_lines (fmt_v fmt_T v)) as [|l0 [|l1 rest]];
    [reflexivity | reflexivity |].
  unfold strings_Join. rewrite count_nl_concat.
  apply Forall_cons in Hf. destruct Hf as (H0 & Hrest).
  assert (Hsum : forall xs : list string,
            Forall (fun line => count_nl line = O) xs ->
            list_sum
              (map count_nl
                 (map (fun l : string => (chain_padding g lasts ++ l)%string)
                    xs)) = O).
  { induction xs as [|x xs IH]; intros Hxs; [reflexivity|].
    apply Forall_cons in Hxs. destruct Hxs as (Hx & Hxs).
    rewrite !map_cons, list_sum_cons.
    now rewrite count_nl_app, count_nl_padding, Hx, IH. }
  rewrite map_cons, list_sum_cons, H0, (Hsum _ Hrest).
  rewrite !length_cons, length_map in *. cbn [pred length] in *. lia.
Qed.

Lemma count_nl_forest (bound : nat) :
  forall (anc : list bool) ks,
    Forall (fun k => (height k <= bound)%nat) ks ->
    count_nl (diagram_forest fmt_T g pf anc ks)
    = list_sum (map (node_breaks fmt_T pf)
                  (flat_map (fun k => k :: descendants k) ks)).
Proof.
  induction bound as [|bound IH]; intros anc ks Hh.
  - destruct ks as [|k ks]; [reflexivity|].
    apply Forall_cons in Hh. destruct Hh as (Hk & _).
    pose proof (height_pos k). lia.
  - revert Hh. induction ks as [|k ks IHks]; intros Hh; [reflexivity|].
    apply Forall_cons in Hh. destruct Hh as (Hk & Hks).
    cbn [diagram_forest flat_map]. destruct k as [c m v kks].
    rewrite diagram_node_eq, !count_nl_app, count_nl_padding,
      count_nl_value_text.
    rewrite (IH _ kks (height_kids c m v kks bound Hk)).
    rewrite (IHks Hks).
    cbn [app]. rewrite map_cons, list_sum_cons, map_app, list_sum_app.
    change (node_breaks fmt_T pf (Tree c m v kks))
      with (1 + (if is_nil m then 0
                 else count_nl (printMeta fmt_T pf m))
            + count_nl (fmt_v fmt_T v))%nat.
    cbn [descendants].
    assert (Hc : count_nl (connector g (is_last_of ks)) = O)
      by (unfold connector; now destruct (is_last_of ks)).
    rewrite Hc.
    change (count_nl " ") with O. change (count_nl nl) with 1%nat.
    destruct (is_nil m); cbn [count_nl]; lia.
Qed.

(** X11.  With glyphs of one line and the default value formatter, the
    render of a well-formed tree from its root has as many line breaks as
    its nodes bring: for each node one, plus those inside its printed meta
    and inside its value.  When no meta and no value has a line break, that
    is one line per node. *)
Theorem Bytes_line_count h t (fuel : nat) :
  0 <= IndentSize g < 2 ^ 63 - 1 ->
  repr h None t -> (height t <= S fuel)%nat ->
  Z.of_nat (height t) < 2 ^ 63 ->
  exists out,
    Bytes fmt_T g pf h fuel (tloc t) = Ok out
    /\ count_nl out
       = list_sum (map (node_breaks fmt_T pf) (t :: descendants t)).
Proof.
  intros Hind Hr Hh Hb.
  exists (diagram fmt_T g pf t).
  split; [now apply Bytes_root_repr|].
  destruct t as [r m v ks]. unfold diagram. cbn [tmeta tvalue tkids].
  rewrite !count_nl_app.
  rewrite (count_nl_forest (height (Tree r m v ks)) [] ks).
  - rewrite map_cons, list_sum_cons.
    change (node_breaks fmt_T pf (Tree r m v ks))
      with (1 + (if is_nil m then 0
                 else count_nl (printMeta fmt_T pf m))
            + count_nl (fmt_v fmt_T v))%nat.
    cbn [descendants]. unfold printValue, DefaultPrintValue.
    rewrite default_value.
    change (count_nl nl) with 1%nat.
    destruct (is_nil m); cbn [count_nl]; lia.
  - apply Forall_forall. intros k Hk. apply list_elem_of_In in Hk.
    pose proof (height_kid r m v ks k Hk). lia.
Qed.

End Lines.

(** ** What the searches never answer *)

(** X12.  Neither search answers its own receiver: what they return is a
    descendant, at another location, also when the receiver's own meta or
    value deep-equals the target. *)
Theorem searches_skip_receiver h t (target : Value T) (fuel : nat) :
  shape h t -> (height t <= fuel)%nat ->
  FindByMeta deep_T fuel h (tloc t) target <> Ok (Some (tloc t))
  /\ FindByValue deep_T fuel h (tloc t) target <> Ok (Some (tloc t)).
Proof.
  intros Hs Hh.
  assert (Hmeta : forall k, shape h k -> (height k <= fuel)%nat ->
            forall d, find (meta_matches deep_T target) (descendants k)
                      = Some d -> d ∈ descendants k).
  { intros k _ _ d E. apply find_some in E. destruct E as (Hin & _).
    now apply list_elem_of_In. }
  split.
  - rewrite (FindByMeta_shape deep_T fuel h t target Hs Hh).
    destruct (find (meta_matches deep_T target) (descendants t)) as [d|] eqn:E;
      [|discriminate].
    cbn [option_map]. intros Heq. injection Heq as Heq.
    apply (descendants_apart h t d Hs); [|exact Heq].
    now apply (Hmeta t Hs Hh).
  - destruct t as [l m v ks]. cbn [tloc].
    pose proof (proj1 (shape_unfold _ _ _ _ _) Hs) as ((p & Hl) & Hks).
    unfold FindByValue. rewrite (deref_Some _ _ _ Hl). cbn [bind Nodes].
    assert (Hapart : forall d, d ∈ descendants (Tree l m v ks) -> tloc d <> l)
      by (intros d Hd; apply (descendants_apart h _ d Hs Hd)).
    assert (Hhk : Forall (fun k => (height k <= fuel)%nat) ks).
    { apply Forall_forall. intros k Hk. apply list_elem_of_In in Hk.
      pose proof (height_kid l m v ks k Hk). lia. }
    clear Hl Hs Hh.
    induction ks as [|k ks IH]; [discriminate|].
    apply Forall_cons in Hks, Hhk.
    destruct Hks as (Hk & Hks), Hhk as (Hhk & Hhks).
    cbn [map find_range].
    destruct (shape_lookup _ _ Hk) as (pk & Hlk).
    rewrite (deref_Some _ _ _ Hlk). cbn [bind Value_].
    destruct (DeepEqual deep_T (tvalue k) target).
    + intros Heq. injection Heq as Heq.
      apply (Hapart k); [|exact Heq].
      rewrite descendants_cons. apply elem_of_cons. now left.
    + rewrite (FindByMeta_shape deep_T fuel h k target Hk Hhk). cbn [bind].
      destruct (find (meta_matches deep_T target) (descendants k))
        as [d|] eqn:E; cbn [option_map].
      * intros Heq. injection Heq as Heq.
        apply (Hapart d); [|exact Heq].
        rewrite descendants_cons. apply elem_of_cons. right.
        apply elem_of_app. left. now apply (Hmeta k Hk Hhk).
      * apply IH; [exact Hks | | exact Hhks].
        intros d Hd. apply Hapart. rewrite descendants_cons.
        apply elem_of_cons. right. apply elem_of_app. now right.
Qed.

End Further.

(** * The sample runs *)

Module Checks.

Import Samples.

Ltac holds_tree :=
  cbn; repeat split; try reflexivity;
  apply (bool_decide_unpack _); vm_compute; exact I.

Lemma deep_repr : repr deep_heap None deep_tree.
Proof. holds_tree. Qed.

Lemma tagged_repr : repr tagged_heap None tagged_tree.
Proof. holds_tree. Qed.

Lemma tagged_shape : shape tagged_heap tagged_tree.
Proof. apply (repr_shape 3 _ None); [vm_compute; lia | exact tagged_repr]. Qed.

(** A node whose back pointer [Branch] has cleared still heads a tree. *)
Example detached_shape :
  shape (fst (run (Branch tagged_heap 1%nat) ([], 0%nat)))
    (Tree 1%nat (VOther true) (VString "x")
       [Tree 2%nat (VString "k") (VString "y") [];
        Tree 3%nat VNil (VString "k") []]).
Proof. cbn. repeat split; eexists; reflexivity. Qed.

Lemma default_indent_ok : 0 <= IndentSize default_globals < 2 ^ 63 - 1.
Proof. vm_compute. split; [discriminate | reflexivity]. Qed.

(** The nested example of the specification. *)
Example nested_diagram :
  Bytes show_bool default_globals pf0 nested_heap 2 0%nat =
  Ok ("." ++ nl ++ "├── x" ++ nl ++ "│   └── y" ++ nl ++ "└── z" ++ nl)%string.
Proof. reflexivity. Qed.

(** A three-line value two levels down, under branches that are not last:
    lines two and three carry two link segments and one blank segment. *)
Example deep_diagram :
  Bytes show_bool default_globals pf0 deep_heap 3 0%nat =
  Ok ("." ++ nl
      ++ "├── x" ++ nl
      ++ "│   ├── p" ++ nl
      ++ "│   │   └── one" ++ nl
      ++ "│   │       two" ++ nl
      ++ "│   │       three" ++ nl
      ++ "│   └── q" ++ nl
      ++ "└── z" ++ nl)%string.
Proof. reflexivity. Qed.

(** ** The general statements at the sample runs *)

Lemma Bytes_multiline_padding_witness :
  0 <= IndentSize default_globals < 2 ^ 63 - 1
  /\ repr deep_heap None deep_tree
  /\ (height deep_tree <= 4)%nat
  /\ Z.of_nat (height deep_tree) < 2 ^ 63
  /\ Bytes show_bool default_globals pf0 deep_heap 3 (tloc deep_tree)
     = Ok (diagram show_bool default_globals pf0 deep_tree).
Proof.
  assert (Hh : (height deep_tree <= 4)%nat) by (vm_compute; lia).
  assert (Hb : Z.of_nat (height deep_tree) < 2 ^ 63) by reflexivity.
  split; [exact default_indent_ok|].
  split; [exact deep_repr|].
  split; [exact Hh|].
  split; [exact Hb|].
  exact (proj1 (Bytes_multiline_padding show_bool default_globals pf0
                  deep_heap deep_tree 3 default_indent_ok deep_repr Hh Hb)).
Defined.

Lemma Bytes_root_line_witness :
  fst (New (T:=bool) []) !! 0%nat
    = Some {| Root := None; Meta := VNil; Value_ := VString ".";
              Nodes := [] |}
  /\ Root {| Root := None; Meta := @VNil bool; Value_ := VString ".";
             Nodes := [] |} = None
  /\ Bytes show_bool default_globals pf0 (fst (New [])) 0 0%nat
     = Ok ("." ++ nl)%string.
Proof.
  split; [reflexivity|]. split; [reflexivity|].
  exact (proj1 (proj1 (Bytes_root_line show_bool default_globals pf0
                         (fst (New [])) 0%nat _ 0%nat eq_refl eq_refl)
                  eq_refl)).
Defined.

Lemma Bytes_appended_leaves_witness :
  fst (New (T:=bool) []) !! 0%nat
    = Some {| Root := None; Meta := VNil; Value_ := VString ".";
              Nodes := [] |}
  /\ (0 < 1)%nat
  /\ Forall (fun v : Value bool =>
            len (split_lines (printValue show_bool pf0 v)) < 2)
    [VString "a"; VString "b"]
  /\ exists h',
       AddNodes (fst (New [])) 0%nat [VString "a"; VString "b"]
       = Ok (h', 0%nat)
       /\ Bytes show_bool default_globals pf0 h' 1 0%nat
          = Ok ("." ++ nl
                ++ leaf_lines show_bool default_globals
                     [VString "a"; VString "b"])%string.
Proof.
  assert (Hone : Forall (fun v : Value bool =>
                           len (split_lines (printValue show_bool pf0 v)) < 2)
                   [VString "a"; VString "b"])
    by (repeat constructor).
  split; [reflexivity|]. split; [lia|]. split; [exact Hone|].
  apply (Bytes_appended_leaves show_bool default_globals pf0
           (fst (New [])) 0%nat _ [VString "a"; VString "b"] 1%nat
           eq_refl eq_refl eq_refl Hone).
  lia.
Defined.

Lemma FindByMeta_first_match_witness :
  shape tagged_heap tagged_tree
  /\ (height tagged_tree <= 3)%nat
  /\ ((exists pre d post,
          descendants tagged_tree = pre ++ d :: post
          /\ Forall (fun x => DeepEqual Bool.eqb (tmeta x) (VString "k")
                              = false) pre
          /\ DeepEqual Bool.eqb (tmeta d) (VString "k") = true
          /\ FindByMeta Bool.eqb 3 tagged_heap (tloc tagged_tree)
               (VString "k") = Ok (Some (tloc d)))
      \/ (Forall (fun x => DeepEqual Bool.eqb (tmeta x) (VString "k")
                           = false) (descendants tagged_tree)
          /\ FindByMeta Bool.eqb 3 tagged_heap (tloc tagged_tree)
               (VString "k") = Ok None)).
Proof.
  assert (Hh : (height tagged_tree <= 3)%nat) by (vm_compute; lia).
  split; [exact tagged_shape|]. split; [exact Hh|].
  exact (FindByMeta_first_match Bool.eqb tagged_heap tagged_tree
           (VString "k") 3 tagged_shape Hh).
Defined.

Lemma FindByMeta_nil_target_witness :
  shape tagged_heap tagged_tree
  /\ (height tagged_tree <= 3)%nat
  /\ Exists (fun d => tmeta d = VNil) (descendants tagged_tree)
  /\ exists pre d post,
       descendants tagged_tree = pre ++ d :: post
       /\ Forall (fun x => tmeta x <> VNil) pre
       /\ tmeta d = VNil
       /\ FindByMeta Bool.eqb 3 tagged_heap (tloc tagged_tree) VNil
          = Ok (Some (tloc d)).
Proof.
  assert (Hh : (height tagged_tree <= 3)%nat) by (vm_compute; lia).
  assert (Hex : Exists (fun d : tree bool => tmeta d = VNil)
                  (descendants tagged_tree)).
  { cbn. do 2 apply Exists_cons_tl. apply Exists_cons_hd. reflexivity. }
  split; [exact tagged_shape|]. split; [exact Hh|]. split; [exact Hex|].
  exact (FindByMeta_nil_target Bool.eqb tagged_heap tagged_tree 3
           tagged_shape Hh Hex).
Defined.

(** What the two searches answer on the tagged tree: the node tagged "k"
    for the target "k", by meta and by value alike (the node whose value is
    "k" lies below a child and is passed over); the first node without meta
    for the nil target. *)
Example tagged_searches :
  FindByMeta Bool.eqb 3 tagged_heap 0%nat (VString "k") = Ok (Some 2%nat)
  /\ FindByValue Bool.eqb 2 tagged_heap 0%nat (VString "k") = Ok (Some 2%nat)
  /\ FindByMeta Bool.eqb 3 tagged_heap 0%nat VNil = Ok (Some 3%nat).
Proof. repeat split. Qed.

Lemma FindByValue_descends_by_meta_witness :
  shape tagged_heap tagged_tree
  /\ (height tagged_tree <= 3)%nat
  /\ FindByValue Bool.eqb 2 tagged_heap (tloc tagged_tree) (VString "k")
     = Ok (by_value_answer Bool.eqb (VString "k") (tkids tagged_tree)).
Proof.
  assert (Hh : (height tagged_tree <= 3)%nat) by (vm_compute; lia).
  split; [exact tagged_shape|]. split; [exact Hh|].
  exact (FindByValue_descends_by_meta Bool.eqb tagged_heap tagged_tree
           (VString "k") 2 tagged_shape Hh).
Defined.

Lemma Branch_clears_parent_witness :
  nested_heap !! 1%nat
    = Some {| Root := Some 0%nat; Meta := VNil; Value_ := VString "x";
              Nodes := [2%nat] |}
  /\ exists h',
       Branch nested_heap 1%nat = Ok (h', 1%nat)
       /\ h' !! 1%nat
          = Some {| Root := None; Meta := VNil; Value_ := VString "x";
                    Nodes := [2%nat] |}
       /\ (forall l : loc, l <> 1%nat -> h' !! l = nested_heap !! l)
       /\ length h' = length nested_heap
       /\ Branch h' 1%nat = Ok (h', 1%nat)
       /\ (Some 0%nat = None -> h' = nested_heap).
Proof.
  split; [reflexivity|].
  exact (Branch_clears_parent nested_heap 1%nat _ eq_refl).
Defined.

Lemma Bytes_child_connector_witness :
  two_leaves !! 1%nat = Some (leaf_node 0%nat (VString "a"))
  /\ Root (leaf_node 0%nat (@VString bool "a")) = Some 0%nat
  /\ Bytes show_bool default_globals pf0 two_leaves 1 1%nat
     = Ok (EdgeTypeEnd default_globals ++ " a" ++ nl)%string.
Proof.
  split; [reflexivity|]. split; [reflexivity|].
  rewrite (Bytes_child_connector show_bool default_globals pf0 two_leaves
             1%nat _ 0%nat 1%nat eq_refl eq_refl).
  reflexivity.
Defined.

(** ** Where the code leaves the specification *)

(** C3 as stated fails.  "a" is not the last child of its parent and has
    no children: its line takes the last-branch glyph, not the mid-branch
    one.  "x" is the last child of its parent and has a child: its line takes
    the mid-branch glyph, not the last-branch one. *)
Lemma connector_not_by_position :
  (isLast two_leaves 1%nat = Ok false
   /\ Bytes show_bool default_globals pf0 two_leaves 1 1%nat
      = Ok (EdgeTypeEnd default_globals ++ " a" ++ nl)%string
   /\ Bytes show_bool default_globals pf0 two_leaves 1 1%nat
      <> Ok (EdgeTypeMid default_globals ++ " a" ++ nl)%string)
  /\ (isLast only_branch 1%nat = Ok true
      /\ Bytes show_bool default_globals pf0 only_branch 1 1%nat
         = Ok (EdgeTypeMid default_globals ++ " x" ++ nl
               ++ EdgeTypeEnd default_globals ++ " y" ++ nl)%string
      /\ Bytes show_bool default_globals pf0 only_branch 1 1%nat
         <> Ok (EdgeTypeEnd default_globals ++ " x" ++ nl
                ++ EdgeTypeEnd default_globals ++ " y" ++ nl)%string).
Proof.
  repeat split; try reflexivity; vm_compute; discriminate.
Qed.

(** C9 as stated fails.  A lone root whose value is "one\ntwo" renders to
    two lines, not one; a lone root "." with the meta "m" renders to
    "[m]  .", not to its value. *)
Lemma root_line_not_the_value :
  (two_line_root !! 0%nat
     = Some {| Root := None; Meta := VNil; Value_ := VString two_lines;
               Nodes := [] |}
   /\ Bytes show_bool default_globals pf0 two_line_root 0 0%nat
      = Ok ("one" ++ nl ++ "two" ++ nl)%string
   /\ count_nl ("one" ++ nl ++ "two" ++ nl) = 2%nat)
  /\ (meta_root !! 0%nat
        = Some {| Root := None; Meta := VString "m"; Value_ := VString ".";
                  Nodes := [] |}
      /\ Bytes show_bool default_globals pf0 meta_root 0 0%nat
         = Ok ("[m]  ." ++ nl)%string
      /\ Bytes show_bool default_globals pf0 meta_root 0 0%nat
         <> Ok ("." ++ nl)%string).
Proof.
  repeat split; try reflexivity. vm_compute. discriminate.
Qed.

(** C2 on the code.  "one\ntwo" is a branch under the branch "x" under the
    root: rendering it stores a link at index -1 and panics, for every
    budget. *)
Theorem Bytes_below_branch_panics (fuel : nat) :
  Bytes show_bool default_globals pf0 under_branch fuel 2%nat
  = Panic IndexOutOfRange.
Proof. reflexivity. Qed.

(** C4 on the code.  With a value formatter that puts a value between
    angle brackets, the root line has the brackets and the lines of the
    one-line children have not: their text is the plain [%v] of the value. *)
Theorem Bytes_drops_value_formatter :
  Bytes show_bool default_globals angle two_leaves 1 0%nat
  = Ok ("<.>" ++ nl ++ "├── a" ++ nl ++ "└── b" ++ nl)%string
  /\ printValue show_bool angle (VString "a") = "<a>"%string.
Proof. split; reflexivity. Qed.

End Checks.

(** * The further properties at the sample runs *)

Module FurtherChecks.

Import Samples.

Ltac holds_shape := cbn; repeat split; try (eexists; reflexivity).

Lemma tagged_is_repr : repr tagged_heap None tagged_tree.
Proof.
  cbn; repeat split; try reflexivity;
    apply (bool_decide_unpack _); vm_compute; exact I.
Qed.

Lemma tagged_is_shape : shape tagged_heap tagged_tree.
Proof. holds_shape. Qed.

Lemma tagged_height : (height tagged_tree <= 3)%nat.
Proof. vm_compute. lia. Qed.

Lemma deep_x_repr : repr deep_heap (Some 0%nat) deep_x.
Proof.
  cbn; repeat split; try reflexivity;
    apply (bool_decide_unpack _); vm_compute; exact I.
Qed.

Lemma indent_3_ok : 0 <= IndentSize default_globals < 2 ^ 63 - 1.
Proof. vm_compute. split; [discriminate | reflexivity]. Qed.

(** The visit of the tagged tree, and the render of the branch "x" of the
    deep tree before it is detached. *)
Example tagged_visit :
  VisitAll 3 tagged_heap 0%nat listing [] = Ok [1%nat; 2%nat; 3%nat; 4%nat].
Proof. reflexivity. Qed.

Example deep_x_attached :
  Bytes show_bool default_globals pf0 deep_heap 3 1%nat
  = Panic IndexOutOfRange.
Proof. reflexivity. Qed.

Lemma VisitAll_preorder_witness :
  shape tagged_heap tagged_tree
  /\ (height tagged_tree <= 3)%nat
  /\ VisitAll 3 tagged_heap (tloc tagged_tree) listing []
     = Ok (fold_left listing (map tloc (descendants tagged_tree)) []).
Proof.
  split; [exact tagged_is_shape|]. split; [exact tagged_height|].
  exact (VisitAll_preorder tagged_heap tagged_tree listing [] 3
           tagged_is_shape tagged_height).
Defined.

Lemma adders_keep_tree_witness :
  repr tagged_heap None tagged_tree
  /\ tagged_heap !! 1%nat = Some tagged_x
  /\ exists h',
       AddMetaBranch tagged_heap 1%nat (VString "n") (VString "w")
       = Ok (h', length tagged_heap)
       /\ AddMetaNode tagged_heap 1%nat (VString "n") (VString "w")
          = Ok (h', 1%nat)
       /\ AddBranch tagged_heap 1%nat (VString "w")
          = AddMetaBranch tagged_heap 1%nat VNil (VString "w")
       /\ AddNode tagged_heap 1%nat (VString "w")
          = AddMetaNode tagged_heap 1%nat VNil (VString "w")
       /\ repr h' None
            (graft 1%nat
               (Tree (length tagged_heap) (VString "n") (VString "w") [])
               tagged_tree)
       /\ h' !! 1%nat
          = Some (set_Nodes tagged_x (Nodes tagged_x ++ [length tagged_heap]))
       /\ h' !! length tagged_heap
          = Some {| Root := Some 1%nat; Meta := VString "n";
                    Value_ := VString "w"; Nodes := [] |}
       /\ (forall (l : loc) (x : Node bool),
             l <> 1%nat -> tagged_heap !! l = Some x -> h' !! l = Some x).
Proof.
  split; [exact tagged_is_repr|]. split; [reflexivity|].
  exact (adders_keep_tree tagged_heap None tagged_tree 1%nat tagged_x
           (VString "n") (VString "w") tagged_is_repr eq_refl).
Defined.

Lemma last_node_after_add_witness :
  tagged_heap !! 1%nat = Some tagged_x
  /\ (Nodes tagged_x = [] -> FindLastNode tagged_heap 1%nat = Ok None)
  /\ exists h' c,
       AddMetaBranch tagged_heap 1%nat VNil (VString "w") = Ok (h', c)
       /\ FindLastNode h' 1%nat = Ok (Some c)
       /\ isLast h' c = Ok true
       /\ (forall (c0 : loc) (x : Node bool),
             tagged_heap !! c0 = Some x -> Root x = Some 1%nat ->
             isLast h' c0 = Ok false).
Proof.
  split; [reflexivity|].
  exact (last_node_after_add tagged_heap 1%nat tagged_x VNil (VString "w")
           eq_refl).
Defined.

Lemma search_after_add_witness :
  repr tagged_heap None tagged_tree
  /\ (height tagged_tree <= 3)%nat /\ (2 <= 3)%nat
  /\ exists h' c,
       AddMetaBranch tagged_heap (tloc tagged_tree) (VString "n")
         (VString "w") = Ok (h', c)
       /\ FindByMeta Bool.eqb 3 h' (tloc tagged_tree) (VString "n") =
          (r <- FindByMeta Bool.eqb 3 tagged_heap (tloc tagged_tree)
                  (VString "n");
           match r with
           | Some d => Ok (Some d)
           | None =>
               Ok (if DeepEqual Bool.eqb (VString "n") (VString "n")
                   then Some c else None)
           end).
Proof.
  split; [exact tagged_is_repr|]. split; [exact tagged_height|].
  split; [lia|].
  apply (search_after_add Bool.eqb tagged_heap None tagged_tree
           (VString "n") (VString "w") (VString "n") 3
           tagged_is_repr tagged_height).
  lia.
Defined.

Lemma setters_keep_tree_witness :
  repr tagged_heap None tagged_tree
  /\ tagged_heap !! 1%nat = Some tagged_x
  /\ (exists h',
         SetValue tagged_heap 1%nat (VString "X") = Ok h'
         /\ repr h' None (with_value 1%nat (VString "X") tagged_tree)
         /\ h' !! 1%nat
            = Some {| Root := Root tagged_x; Meta := Meta tagged_x;
                      Value_ := VString "X"; Nodes := Nodes tagged_x |}
         /\ (forall l : loc, l <> 1%nat -> h' !! l = tagged_heap !! l))
  /\ (exists h',
         SetMetaValue tagged_heap 1%nat VNil = Ok h'
         /\ repr h' None (with_meta 1%nat VNil tagged_tree)
         /\ h' !! 1%nat
            = Some {| Root := Root tagged_x; Meta := VNil;
                      Value_ := Value_ tagged_x; Nodes := Nodes tagged_x |}
         /\ (forall l : loc, l <> 1%nat -> h' !! l = tagged_heap !! l)).
Proof.
  split; [exact tagged_is_repr|]. split; [reflexivity|].
  exact (setters_keep_tree tagged_heap None tagged_tree 1%nat tagged_x
           (VString "X") VNil tagged_is_repr eq_refl).
Defined.

Lemma Branch_then_Bytes_witness :
  0 <= IndentSize default_globals < 2 ^ 63 - 1
  /\ repr deep_heap (Some 0%nat) deep_x
  /\ (height deep_x <= 3)%nat
  /\ Z.of_nat (height deep_x) < 2 ^ 63
  /\ exists h',
       Branch deep_heap (tloc deep_x) = Ok (h', tloc deep_x)
       /\ Bytes show_bool default_globals pf0 h' 2 (tloc deep_x)
          = Ok (diagram show_bool default_globals pf0 deep_x).
Proof.
  assert (Hh : (height deep_x <= 3)%nat) by (vm_compute; lia).
  assert (Hb : Z.of_nat (height deep_x) < 2 ^ 63) by reflexivity.
  split; [exact indent_3_ok|]. split; [exact deep_x_repr|].
  split; [exact Hh|]. split; [exact Hb|].
  exact (Branch_then_Bytes show_bool default_globals pf0 deep_heap
           (Some 0%nat) deep_x 2 indent_3_ok deep_x_repr Hh Hb).
Defined.

(** The chain of the three-line leaf of the deep tree: below "x" and "p",
    which are not last, and itself last. *)
Lemma deep_leaf_chain : up_chain deep_heap 3%nat [false; false; true].
Proof.
  assert (H : exists lasts,
             up_chain deep_heap 3%nat lasts /\ lasts = [false; false; true]).
  { eexists. split.
    - eapply up_step; [reflexivity | reflexivity | reflexivity |].
      eapply up_step; [reflexivity | reflexivity | reflexivity |].
      eapply up_step; [reflexivity | reflexivity | reflexivity |].
      eapply up_root; reflexivity.
    - vm_compute. reflexivity. }
  destruct H as (lasts & Hup & ->). exact Hup.
Qed.

Lemma padding_walk_witness :
  0 <= IndentSize default_globals < 2 ^ 63 - 1
  /\ up_chain deep_heap 3%nat [false; false; true]
  /\ -1 <= 2 /\ 2 + 1 < 2 ^ 63
  /\ padding default_globals deep_heap 2 3%nat =
     (if len [false; false; true] <=? 2 + 1
      then Ok (chain_padding default_globals [false; false; true])
      else Panic IndexOutOfRange).
Proof.
  assert (H1 : -1 <= 2) by lia.
  assert (H2 : 2 + 1 < 2 ^ 63) by reflexivity.
  split; [exact indent_3_ok|]. split; [exact deep_leaf_chain|].
  split; [exact H1|]. split; [exact H2|].
  exact (padding_walk default_globals deep_heap indent_3_ok 3%nat
           [false; false; true] 2 deep_leaf_chain H1 H2).
Defined.

Lemma tagged_one_line :
  Forall (fun d : tree bool => one_line show_bool pf0 (tvalue d))
    (descendants tagged_tree).
Proof. repeat constructor. Qed.

Lemma Bytes_one_line_tree_witness :
  0 <= IndentSize default_globals < 2 ^ 63 - 1
  /\ shape tagged_cut tagged_tree
  /\ tagged_cut !! tloc tagged_tree
     = Some {| Root := None; Meta := VNil; Value_ := VString ".";
               Nodes := [1%nat; 4%nat] |}
  /\ Forall (fun d : tree bool => one_line show_bool pf0 (tvalue d))
       (descendants tagged_tree)
  /\ (height tagged_tree <= 3)%nat
  /\ Z.of_nat (height tagged_tree) < 2 ^ 63
  /\ Bytes show_bool default_globals pf0 tagged_cut 2 (tloc tagged_tree)
     = Ok (diagram show_bool default_globals pf0 tagged_tree).
Proof.
  assert (Hs : shape tagged_cut tagged_tree) by holds_shape.
  assert (Hb : Z.of_nat (height tagged_tree) < 2 ^ 63) by reflexivity.
  split; [exact indent_3_ok|]. split; [exact Hs|]. split; [reflexivity|].
  split; [exact tagged_one_line|]. split; [exact tagged_height|].
  split; [exact Hb|].
  exact (Bytes_one_line_tree show_bool default_globals pf0 tagged_cut
           indent_3_ok tagged_tree _ 2 Hs eq_refl eq_refl tagged_one_line
           tagged_height Hb).
Defined.

Lemma Bytes_subtree_one_line_witness :
  0 <= IndentSize default_globals < 2 ^ 63 - 1
  /\ shape tagged_heap tagged_x_tree
  /\ tagged_heap !! tloc tagged_x_tree = Some tagged_x
  /\ Root tagged_x = Some 0%nat
  /\ Forall (fun d : tree bool => one_line show_bool pf0 (tvalue d))
       (tagged_x_tree :: descendants tagged_x_tree)
  /\ (height tagged_x_tree <= 2)%nat
  /\ Z.of_nat (height tagged_x_tree) < 2 ^ 63
  /\ Bytes show_bool default_globals pf0 tagged_heap 1 (tloc tagged_x_tree)
     = Ok (connector default_globals (is_last_of (tkids tagged_x_tree))
           ++ " "
           ++ (if is_nil (tmeta tagged_x_tree) then ""
               else printMeta show_bool pf0 (tmeta tagged_x_tree))
           ++ fmt_v show_bool (tvalue tagged_x_tree) ++ nl
           ++ diagram_forest show_bool default_globals pf0 []
                (tkids tagged_x_tree))%string.
Proof.
  assert (Hs : shape tagged_heap tagged_x_tree) by holds_shape.
  assert (Hone : Forall
            (fun d : tree bool => one_line show_bool pf0 (tvalue d))
            (tagged_x_tree :: descendants tagged_x_tree))
    by (repeat constructor).
  assert (Hh : (height tagged_x_tree <= 2)%nat) by (vm_compute; lia).
  assert (Hb : Z.of_nat (height tagged_x_tree) < 2 ^ 63) by reflexivity.
  split; [exact indent_3_ok|]. split; [exact Hs|]. split; [reflexivity|].
  split; [reflexivity|]. split; [exact Hone|]. split; [exact Hh|].
  split; [exact Hb|].
  exact (Bytes_subtree_one_line show_bool default_globals pf0 tagged_heap
           indent_3_ok tagged_x_tree tagged_x 0%nat 1 Hs eq_refl eq_refl
           Hone Hh Hb).
Defined.

(** The branch "x" of the tagged tree rendered on its own: its children
    stand at the column of its own line. *)
Example tagged_x_alone :
  Bytes show_bool default_globals pf0 tagged_heap 1 1%nat
  = Ok ("├── [true]  x" ++ nl ++ "├── [k]  y" ++ nl ++ "└── k" ++ nl)%string.
Proof. reflexivity. Qed.

Lemma Bytes_negative_indent_witness :
  - 2 ^ 63 <= IndentSize narrow_globals < -1
  /\ shape tagged_heap tagged_tree
  /\ tagged_heap !! tloc tagged_tree
     = Some {| Root := None; Meta := VNil; Value_ := VString ".";
               Nodes := [1%nat; 4%nat] |}
  /\ Forall (fun k : tree bool => one_line show_bool pf0 (tvalue k))
       (tkids tagged_tree)
  /\ Exists (fun k : tree bool => tkids k <> []) (tkids tagged_tree)
  /\ (2 <= 2)%nat
  /\ Bytes show_bool narrow_globals pf0 tagged_heap 2 (tloc tagged_tree)
     = Panic NegativeRepeatCount.
Proof.
  assert (Hneg : - 2 ^ 63 <= IndentSize narrow_globals < -1)
    by (vm_compute; split; [discriminate | reflexivity]).
  assert (Hone : Forall
            (fun k : tree bool => one_line show_bool pf0 (tvalue k))
            (tkids tagged_tree)) by (repeat constructor).
  assert (Hex : Exists (fun k : tree bool => tkids k <> [])
                  (tkids tagged_tree))
    by (apply Exists_cons_hd; discriminate).
  split; [exact Hneg|]. split; [exact tagged_is_shape|].
  split; [reflexivity|]. split; [exact Hone|]. split; [exact Hex|].
  split; [lia|].
  apply (Bytes_negative_indent show_bool narrow_globals pf0 tagged_heap
           tagged_tree _ 2 Hneg tagged_is_shape eq_refl eq_refl Hone Hex).
  lia.
Defined.

Lemma Bytes_line_count_witness :
  count_nl (EdgeTypeLink default_globals) = O
  /\ count_nl (EdgeTypeMid default_globals) = O
  /\ count_nl (EdgeTypeEnd default_globals) = O
  /\ ValueFunc pf0 = None
  /\ 0 <= IndentSize default_globals < 2 ^ 63 - 1
  /\ repr deep_heap None deep_tree
  /\ (height deep_tree <= 4)%nat
  /\ Z.of_nat (height deep_tree) < 2 ^ 63
  /\ exists out,
       Bytes show_bool default_globals pf0 deep_heap 3 (tloc deep_tree)
       = Ok out
       /\ count_nl out
          = list_sum (map (node_breaks show_bool pf0)
                        (deep_tree :: descendants deep_tree)).
Proof.
  assert (Hh : (height deep_tree <= 4)%nat) by (vm_compute; lia).
  assert (Hb : Z.of_nat (height deep_tree) < 2 ^ 63) by reflexivity.
  split; [reflexivity|]. split; [reflexivity|]. split; [reflexivity|].
  split; [reflexivity|]. split; [exact indent_3_ok|].
  split; [exact Checks.deep_repr|]. split; [exact Hh|]. split; [exact Hb|].
  exact (Bytes_line_count show_bool default_globals pf0 eq_refl eq_refl
           eq_refl eq_refl deep_heap deep_tree 3 indent_3_ok
           Checks.deep_repr Hh Hb).
Defined.

(** The deep tree has six nodes and one value of three lines: eight
    lines. *)
Example deep_breaks :
  list_sum (map (node_breaks show_bool pf0)
              (deep_tree :: descendants deep_tree)) = 8%nat.
Proof. reflexivity. Qed.

Lemma searches_skip_receiver_witness :
  shape tagged_heap tagged_tree
  /\ (height tagged_tree <= 3)%nat
  /\ FindByMeta Bool.eqb 3 tagged_heap (tloc tagged_tree) VNil
     <> Ok (Some (tloc tagged_tree))
  /\ FindByValue Bool.eqb 3 tagged_heap (tloc tagged_tree) VNil
     <> Ok (Some (tloc tagged_tree)).
Proof.
  split; [exact tagged_is_shape|]. split; [exact tagged_height|].
  exact (searches_skip_receiver Bool.eqb tagged_heap tagged_tree VNil 3
           tagged_is_shape tagged_height).
Defined.

Lemma value_search_after_add_witness :
  repr tagged_heap None tagged_tree
  /\ (height tagged_tree <= 3)%nat /\ (1 <= 2)%nat
  /\ exists h' c,
       AddMetaNode tagged_heap (tloc tagged_tree) VNil (VString "w")
       = Ok (h', tloc tagged_tree)
       /\ h' !! c = Some {| Root := Some (tloc tagged_tree); Meta := VNil;
                            Value_ := VString "w"; Nodes := [] |}
       /\ FindByValue Bool.eqb 2 h' (tloc tagged_tree) (VString "w") =
          (r <- FindByValue Bool.eqb 2 tagged_heap (tloc tagged_tree)
                  (VString "w");
           match r with
           | Some d => Ok (Some d)
           | None =>
               Ok (if DeepEqual Bool.eqb (VString "w") (VString "w")
                   then Some c else None)
           end).
Proof.
  split; [exact tagged_is_repr|]. split; [exact tagged_height|].
  split; [lia|].
  apply (value_search_after_add Bool.eqb tagged_heap None tagged_tree
           VNil (VString "w") (VString "w") 2 tagged_is_repr tagged_height).
  lia.
Defined.

Lemma Branch_keeps_searches_witness :
  shape tagged_heap tagged_tree
  /\ tagged_heap !! 1%nat = Some tagged_x
  /\ (height tagged_tree <= 3)%nat
  /\ exists h',
       Branch tagged_heap 1%nat = Ok (h', 1%nat)
       /\ FindByMeta Bool.eqb 3 h' (tloc tagged_tree) (VString "k")
          = FindByMeta Bool.eqb 3 tagged_heap (tloc tagged_tree) (VString "k")
       /\ FindByValue Bool.eqb 3 h' (tloc tagged_tree) (VString "k")
          = FindByValue Bool.eqb 3 tagged_heap (tloc tagged_tree)
              (VString "k").
Proof.
  split; [exact tagged_is_shape|]. split; [reflexivity|].
  split; [exact tagged_height|].
  exact (Branch_keeps_searches Bool.eqb tagged_heap tagged_tree 1%nat
           tagged_x (VString "k") 3 tagged_is_shape eq_refl tagged_height).
Defined.

End FurtherChecks.
